(** * bmsurge-renderer: the render worker and the job dispatcher

    A shallow embedding of the two programs of the repository:
    - [Dispatcher]: the command line tool that imports URLs into the
      [songs] collection and runs dispatch cycles ([import], [work]);
    - [Worker]: the render pipeline ([render], [prepareSounds],
      [eventLog]) and the HTTP handler [PUT /renders/:operationId].

    JavaScript strings are sequences of UTF-16 code units, objects with a
    fixed shape are records, thrown exceptions are an explicit [Throw]
    result, and everything outside the process (file system, child
    processes, network, clock, identifier generators) is an oracle that
    the definitions take as a parameter. *)

From Stdlib Require Import String Ascii.
From Stdlib Require Import List NArith ZArith Bool Lia.
From Stdlib Require Import Permutation Sorted.
Import ListNotations.

Set Implicit Arguments.
Set Warnings "-register-all".

(* ================================================================== *)
(** * JavaScript values shared by both programs *)
(* ================================================================== *)

Module JS.

(** A JavaScript string: its UTF-16 code units. *)
Definition jsstring := list N.

(** An ASCII literal as a JavaScript string. *)
Definition str (s : string) : jsstring :=
  map N_of_ascii (list_ascii_of_string s).

Definition quote : N := 34.
Definition newline : N := 10.

Fixpoint jsstring_eqb (a b : jsstring) : bool :=
  match a, b with
  | [], [] => true
  | x :: a', y :: b' => N.eqb x y && jsstring_eqb a' b'
  | _, _ => false
  end.

(** Truthiness of a string: every string but the empty one. *)
Definition truthy (s : jsstring) : bool :=
  match s with [] => false | _ :: _ => true end.

(** [String(undefined)]. *)
Definition ToString (v : option jsstring) : jsstring :=
  match v with
  | Some s => s
  | None => str "undefined"
  end.

(** ECMAScript WhiteSpace and LineTerminator code units, the ones
    [String.prototype.trim] strips. *)
Definition is_white_space (c : N) : bool :=
  (N.eqb c 9 || N.eqb c 10 || N.eqb c 11 || N.eqb c 12 || N.eqb c 13
   || N.eqb c 32 || N.eqb c 160 || N.eqb c 5760
   || (N.leb 8192 c && N.leb c 8202)
   || N.eqb c 8232 || N.eqb c 8233 || N.eqb c 8239 || N.eqb c 8287
   || N.eqb c 12288 || N.eqb c 65279)%bool.

Fixpoint trim_start (s : jsstring) : jsstring :=
  match s with
  | c :: s' => if is_white_space c then trim_start s' else s
  | [] => []
  end.

(** [s.trim()] *)
Definition trim (s : jsstring) : jsstring :=
  rev (trim_start (rev (trim_start s))).

(** [s.split(sep)] for a one code unit separator; the result is never
    empty. *)
Fixpoint split (sep : N) (s : jsstring) : list jsstring :=
  match s with
  | [] => [[]]
  | c :: s' =>
      if N.eqb c sep then [] :: split sep s'
      else match split sep s' with
           | l :: ls => (c :: l) :: ls
           | [] => [[c]]
           end
  end.

(** [lines.join(sep)] *)
Fixpoint join (sep : N) (ls : list jsstring) : jsstring :=
  match ls with
  | [] => []
  | [l] => l
  | l :: ls' => l ++ sep :: join sep ls'
  end.

(** [a.pop()]: the last element, [undefined] on an empty array. *)
Fixpoint pop {A} (l : list A) : option A :=
  match l with
  | [] => None
  | [x] => Some x
  | _ :: l' => pop l'
  end.

(** [/^prefix/.test(s)] for a literal prefix. *)
Fixpoint starts_with (prefix s : jsstring) : bool :=
  match prefix, s with
  | [], _ => true
  | p :: prefix', c :: s' => N.eqb p c && starts_with prefix' s'
  | _ :: _, [] => false
  end.

(** The value of a JSON text.  Numbers met in this program are counts
    and millisecond timestamps. *)
Inductive json : Type :=
| JNull
| JBool (b : bool)
| JNum (n : Z)
| JStr (s : jsstring)
| JArr (items : list json)
| JObj (fields : list (jsstring * json)).

(** What the program reads of a thrown [Error]: [error.stack],
    [error.stderr] (child processes) and [error.response.data] (HTTP
    client), the last two [undefined] when absent. *)
Record js_error := mkError {
  stack : jsstring;
  stderr : option jsstring;
  response : option jsstring
}.

(** A call that returns or throws. *)
Inductive result (A : Type) : Type :=
| Ok (a : A)
| Throw (e : js_error).
Arguments Ok {A} a.
Arguments Throw {A} e.

End JS.

(* ================================================================== *)
(** * The dispatcher: [import] and [work] *)
(* ================================================================== *)

Module Dispatcher.
Import JS.

(** A document of the [songs] collection. *)
Record song := mkSong {
  _id : N;
  url : jsstring;
  eventId : jsstring;
  addedAt : Z;
  renderResult : option json;
  renderError : option jsstring;
  renderedAt : option Z
}.

(** The collection, in the order the store returns its documents. *)
Definition collection := list song.

(** ** [import <file>] *)

(** [eventId.match(/^[a-z0-9]+$/)] *)
Definition is_lower_alnum (c : N) : bool :=
  ((N.leb 97 c && N.leb c 122) || (N.leb 48 c && N.leb c 57))%bool.

Definition valid_eventId (e : jsstring) : bool :=
  (truthy e && forallb is_lower_alnum e)%bool.

(** One element of the [operations] array:
    [{ updateOne: { filter: { url }, update: { $setOnInsert: { url,
    eventId, addedAt } }, upsert: true } }]. *)
Record operation := mkOperation {
  op_url : jsstring;
  op_eventId : jsstring;
  op_addedAt : Z
}.

(** A document with the URL [u] is in the collection. *)
Definition present (u : jsstring) (c : collection) : bool :=
  existsb (fun s => jsstring_eqb (url s) u) c.

(** The store's [updateOne] with [upsert: true] and only [$setOnInsert]
    in the update: a document that matches the filter is left as it is;
    when none matches, a document made of the [$setOnInsert] fields is
    inserted under a new identifier. *)
Definition upsert (new_ObjectId : collection -> N) (o : operation)
    (c : collection) : collection :=
  if present (op_url o) c then c
  else c ++ [mkSong (new_ObjectId c) (op_url o) (op_eventId o)
                    (op_addedAt o) None None None].

(** [collection.bulkWrite(operations)]: ordered, one after the other. *)
Definition bulkWrite (new_ObjectId : collection -> N)
    (ops : list operation) (c : collection) : collection :=
  fold_left (fun c o => upsert new_ObjectId o c) ops c.

(** [urls.map(url => ...)]; [new_Date i] is the clock read for the
    [i]-th element. *)
Fixpoint operations_from (eventId : jsstring) (new_Date : nat -> Z)
    (i : nat) (urls : list jsstring) : list operation :=
  match urls with
  | [] => []
  | u :: urls' =>
      mkOperation u eventId (new_Date i)
      :: operations_from eventId new_Date (S i) urls'
  end.

(** The [import] command on the URL list read from the file;
    [eventId] is [path.basename(args.file, '.urls.json')] and [f] the
    apply flag.  [None]: the [invariant] on the event identifier threw. *)
Definition import (new_ObjectId : collection -> N) (new_Date : nat -> Z)
    (eventId : jsstring) (urls : list jsstring) (f : bool)
    (c : collection) : option collection :=
  if valid_eventId eventId then
    let operations := operations_from eventId new_Date 0 urls in
    if f then Some (bulkWrite new_ObjectId operations c) else Some c
  else None.

(** ** [work] *)

(** What lies outside the dispatcher during a dispatch cycle. *)
Record Env := mkEnv {
  (** [JSON.parse] *)
  JSON_parse : jsstring -> result json;
  (** [process.env.WORKER_URL] *)
  WORKER_URL : jsstring;
  (** the [uuidv4()] minted for the attempt on a song *)
  uuidv4 : song -> jsstring;
  (** [axios.put(requestUrl, { url }, ...)]: the response text of a 2xx
      answer, or the error thrown (network, timeout, other status) *)
  axios_put : jsstring -> jsstring -> result jsstring;
  (** the [new Date()] taken when the attempt on a song is written *)
  new_Date : song -> Z
}.

(** Mongo's [{ 'a.b': { $exists: true } }] below the value of [a]: an
    embedded document that has the field, or an array one of whose
    elements is such a document. *)
Definition has_field (k : jsstring) (v : json) : bool :=
  match v with
  | JObj fields => existsb (fun kv => jsstring_eqb (fst kv) k) fields
  | _ => false
  end.

Definition path_exists (k : jsstring) (v : json) : bool :=
  match v with
  | JObj _ => has_field k v
  | JArr items => existsb (has_field k) items
  | _ => false
  end.

(** The filter [{ 'renderResult.uploadedAt': { $exists: false } }]. *)
Definition pending (s : song) : bool :=
  match renderResult s with
  | None => true
  | Some v => negb (path_exists (str "uploadedAt") v)
  end.

(** [songsCollection.find(...).toArray()] *)
Definition find_pending (c : collection) : collection := filter pending c.

(** [response.data.split('\n').filter(r => r.trim()).pop()] *)
Definition last_line (data : jsstring) : option jsstring :=
  pop (filter (fun r => truthy (trim r)) (split newline data)).

(** [JSON.parse(...)] of it; [JSON.parse(undefined)] parses the text
    [undefined]. *)
Definition parse_response (E : Env) (data : jsstring) : result json :=
  JSON_parse E (ToString (last_line data)).

(** [String(error && error.stack) +
     (error.response ? `\nResponse: ${error.response.data}` : '')] *)
Definition describe (error : js_error) : jsstring :=
  stack error ++
  match response error with
  | Some data => newline :: str "Response: " ++ data
  | None => []
  end.

(** [{ $set: { renderResult: result, renderedAt: new Date() } }] *)
Definition set_result (result : json) (now : Z) (s : song) : song :=
  mkSong (_id s) (url s) (eventId s) (addedAt s)
         (Some result) (renderError s) (Some now).

(** [{ $set: { renderError: ..., renderedAt: new Date() } }] *)
Definition set_error (description : jsstring) (now : Z) (s : song) : song :=
  mkSong (_id s) (url s) (eventId s) (addedAt s)
         (renderResult s) (Some description) (Some now).

(** [songsCollection.updateOne({ _id }, update)]: the first document
    with that identifier. *)
Fixpoint updateOne (id : N) (update : song -> song) (c : collection)
  : collection :=
  match c with
  | [] => []
  | s :: c' =>
      if N.eqb (_id s) id then update s :: c'
      else s :: updateOne id update c'
  end.

(** The body of the mapper: the update that the attempt on [song]
    writes, from the [try] branch or from the [catch] branch. *)
Definition attempt (E : Env) (s : song) : song -> song :=
  let operationId := uuidv4 E s in
  match axios_put E (WORKER_URL E ++ str "/renders/" ++ operationId)
                  (url s) with
  | Ok data =>
      match parse_response E data with
      | Ok result => set_result result (new_Date E s)
      | Throw error => set_error (describe error) (new_Date E s)
      end
  | Throw error => set_error (describe error) (new_Date E s)
  end.

(** One dispatch cycle.  The mappers run under [Bluebird.map]; each
    writes one document, addressed by its identifier, so the cycle is
    the sequence of these writes. *)
Definition work (E : Env) (c : collection) : collection :=
  let found := find_pending c in
  fold_left (fun c s => updateOne (_id s) (attempt E s) c) found c.

(** What one cycle does to a record of the collection: the update of
    its own attempt when it is selected, nothing otherwise. *)
Definition cycle (E : Env) (s : song) : song :=
  if pending s then attempt E s s else s.

(** A record that has been attempted: a render timestamp together with
    a result or an error. *)
Definition attempted (s : song) : Prop :=
  renderedAt s <> None /\ (renderResult s <> None \/ renderError s <> None).

(** The writes of a dispatch cycle whose mappers end in the order
    [order]: [Bluebird.map] fixes no order among them. *)
Definition dispatch_in_order (E : Env) (order : list song) (c : collection)
  : collection :=
  fold_left (fun c s => updateOne (_id s) (attempt E s) c) order c.

(** The record of [x] once the jobs [done] were written. *)
Definition written (E : Env) (done : list song) (x : song) : song :=
  if existsb (fun s => N.eqb (_id s) (_id x)) done
  then attempt E x x else x.

(** What a record inserted by the operations [ops] into a collection
    that lacked its URL looks like. *)
Definition inserted_by (ops : list operation) (c : collection) (s : song)
  : Prop :=
  (exists o, In o ops /\ url s = op_url o /\ eventId s = op_eventId o
             /\ addedAt s = op_addedAt o)
  /\ renderResult s = None /\ renderError s = None /\ renderedAt s = None
  /\ present (url s) c = false.

End Dispatcher.

(* ================================================================== *)
(** * The worker: [render], [prepareSounds] and the HTTP handler *)
(* ================================================================== *)

Module Worker.
Import JS.

(** ** Diagnostics *)

(** An element of [outputDiagnostics.events]: [{ time, event }]. *)
Record logged_event := mkEvent {
  time : Z;
  event : jsstring
}.

(** [OutputDiagnostics]; an absent property is [None]. *)
Record OutputDiagnostics := mkDiagnostics {
  operationId : option jsstring;
  workingDirectory : option jsstring;
  events : list logged_event;
  outFile : option jsstring;
  error : option jsstring;
  finishedAt : option Z
}.

(** ** The manifest written by the indexer *)

Record chart := mkChart {
  file : jsstring;
  noteCount : Z
}.

Record song_entry := mkSongEntry {
  id : jsstring;
  charts : list chart
}.

(** The content of [index.json]: [{ songs: [{ id, charts: [{ file,
    noteCount }] }] }]. *)
Record index_json := mkIndex {
  songs : list song_entry
}.

(** ** The world outside the process *)

(** What the process does to the outside, in the order it does it.  Of
    the log lines only the two that carry the outcome of a sound file
    are kept. *)
Inductive action : Type :=
| Mkdirp (dir : jsstring)
| Exec (command : jsstring) (args : list jsstring)
       (timeout : option Z) (cwd : option jsstring)
| Glob (pattern cwd : jsstring) (nodir nocase : bool)
| Unlink (path : jsstring)
| Rename (oldPath newPath : jsstring)
| Realpath (path : jsstring)
| ReadIndex (path : jsstring)
| Stat (path : jsstring)
| Upload (bucket : option jsstring) (path destination : jsstring)
| WarnCannotConvert (sourceFile : jsstring)
| InfoConverted (soundsConverted total : nat)
                (sound resultLogText stderr : jsstring).

(** The answers of the outside.  Every answer may depend on what was
    done before ([list action], oldest first). *)
Record World := mkWorld {
  (** [ObjectID.default.generate()] *)
  ObjectID_generate : jsstring;
  (** [Date.now()], by the number of earlier readings *)
  Date_now : nat -> Z;
  (** the frames V8 appends to [new Error(message).stack] *)
  stack_frames : jsstring;
  (** [process.env.BMSURGE_RENDER_OUTPUT_BUCKET] *)
  BMSURGE_RENDER_OUTPUT_BUCKET : option jsstring;
  mkdirp_sync : list action -> jsstring -> result unit;
  (** [execa(command, args, options)] awaited: the [stderr] of the
      finished child, or the error of a non-zero exit or a timeout *)
  execa : list action -> jsstring -> list jsstring -> option Z ->
          option jsstring -> result jsstring;
  glob_sync : list action -> jsstring -> jsstring -> bool -> bool ->
              result (list jsstring);
  unlinkSync : list action -> jsstring -> result unit;
  renameSync : list action -> jsstring -> jsstring -> result unit;
  realpathSync : list action -> jsstring -> result jsstring;
  (** [JSON.parse(fs.readFileSync(path, 'utf8'))] *)
  read_index : list action -> jsstring -> result index_json;
  (** [fs.statSync(path).size] *)
  statSync_size : list action -> jsstring -> result N;
  (** [storage.bucket(name).upload(path, { destination })] awaited *)
  upload : list action -> option jsstring -> jsstring -> jsstring ->
           result unit
}.

(** The mutable state of one process: the diagnostics object that
    [render] was given, what was done so far, and the number of clock
    readings. *)
Record state := mkState {
  diagnostics : OutputDiagnostics;
  trace : list action;
  clock : nat
}.

(** A computation that changes the state and returns or throws. *)
Definition M (A : Type) : Type := state -> result A * state.

Definition ret {A} (a : A) : M A := fun st => (Ok a, st).

Definition throw {A} (e : js_error) : M A := fun st => (Throw e, st).

Definition bind {A B} (m : M A) (k : A -> M B) : M B :=
  fun st =>
    match m st with
    | (Ok a, st') => k a st'
    | (Throw e, st') => (Throw e, st')
    end.

Notation "x <- m ;; k" := (bind m (fun x => k))
  (at level 61, m at next level, right associativity).
Notation "m ;; k" := (bind m (fun _ => k))
  (at level 61, right associativity).

(** [for (const x of xs) body(x)] *)
Fixpoint for_of {A} (xs : list A) (body : A -> M unit) : M unit :=
  match xs with
  | [] => ret tt
  | x :: xs' => body x ;; for_of xs' body
  end.

Definition record (a : action) (st : state) : state :=
  mkState (diagnostics st) (trace st ++ [a]) (clock st).

(** Do [a] and take the world's answer to it. *)
Definition perform {A} (a : action) (answer : list action -> result A)
  : M A :=
  fun st => (answer (trace st), record a st).

Definition mkdirp (W : World) (dir : jsstring) : M unit :=
  perform (Mkdirp dir) (fun h => mkdirp_sync W h dir).

Definition glob (W : World) (pattern cwd : jsstring) (nodir nocase : bool)
  : M (list jsstring) :=
  perform (Glob pattern cwd nodir nocase)
          (fun h => glob_sync W h pattern cwd nodir nocase).

Definition unlink (W : World) (path : jsstring) : M unit :=
  perform (Unlink path) (fun h => unlinkSync W h path).

Definition rename (W : World) (oldPath newPath : jsstring) : M unit :=
  perform (Rename oldPath newPath) (fun h => renameSync W h oldPath newPath).

Definition realpath (W : World) (path : jsstring) : M jsstring :=
  perform (Realpath path) (fun h => realpathSync W h path).

Definition stat_size (W : World) (path : jsstring) : M N :=
  perform (Stat path) (fun h => statSync_size W h path).

Definition readIndex (W : World) (path : jsstring) : M index_json :=
  perform (ReadIndex path) (fun h => read_index W h path).

(** [await execa(command, args, options)] *)
Definition run_execa (W : World) (command : jsstring) (args : list jsstring)
    (timeout : option Z) (cwd : option jsstring) : M jsstring :=
  perform (Exec command args timeout cwd)
          (fun h => execa W h command args timeout cwd).

(** [await execLog(command, args, options)]: the child's output lines
    go to the logger, the promise is the child's. *)
Definition execLog (W : World) (command : jsstring) (args : list jsstring)
    (timeout : option Z) (cwd : option jsstring) : M unit :=
  run_execa W command args timeout cwd ;; ret tt.

(** [new Error(message)] *)
Definition new_Error (W : World) (message : string) : js_error :=
  mkError (str "Error: " ++ str message ++ stack_frames W) None None.

(** A [TypeError] raised by the engine. *)
Definition new_TypeError (W : World) (message : string) : js_error :=
  mkError (str "TypeError: " ++ str message ++ stack_frames W) None None.

(** [eventLog(outputDiagnostics, event)] *)
Definition eventLog (W : World) (ev : string) (st : state) : state :=
  let d := diagnostics st in
  mkState
    (mkDiagnostics (operationId d) (workingDirectory d)
       (events d ++ [mkEvent (Date_now W (clock st)) (str ev)])
       (outFile d) (error d) (finishedAt d))
    (trace st) (S (clock st)).

(** [outputDiagnostics.workingDirectory = workDir] *)
Definition set_workingDirectory (workDir : jsstring) : M unit :=
  fun st =>
    let d := diagnostics st in
    (Ok tt,
     mkState (mkDiagnostics (operationId d) (Some workDir) (events d)
                (outFile d) (error d) (finishedAt d))
             (trace st) (clock st)).

(** [outputDiagnostics.outFile = path] *)
Definition set_outFile (path : jsstring) : M unit :=
  fun st =>
    let d := diagnostics st in
    (Ok tt,
     mkState (mkDiagnostics (operationId d) (workingDirectory d) (events d)
                (Some path) (error d) (finishedAt d))
             (trace st) (clock st)).

(** [outputDiagnostics.error = String(error && error.stack)] *)
Definition set_error (e : js_error) (st : state) : state :=
  let d := diagnostics st in
  mkState (mkDiagnostics (operationId d) (workingDirectory d) (events d)
             (outFile d) (Some (stack e)) (finishedAt d))
          (trace st) (clock st).

(** [outputDiagnostics.finishedAt = Date.now()] *)
Definition set_finishedAt (W : World) (st : state) : state :=
  let d := diagnostics st in
  mkState (mkDiagnostics (operationId d) (workingDirectory d) (events d)
             (outFile d) (error d) (Some (Date_now W (clock st))))
          (trace st) (S (clock st)).

(** ** Paths *)

Definition slash : N := 47.
Definition dot : N := 46.

(** The last segment of a path that does not end in a slash. *)
Definition last_segment (path : jsstring) : jsstring :=
  match pop (split slash path) with
  | Some seg => seg
  | None => []
  end.

(** The suffix of [s] that starts at its last dot, when that dot is not
    the first code unit: [go seen s] with [seen] telling whether a code
    unit came before. *)
Fixpoint from_last_dot (seen : bool) (s : jsstring) : option jsstring :=
  match s with
  | [] => None
  | c :: s' =>
      match from_last_dot true s' with
      | Some ext => Some ext
      | None => if (N.eqb c dot && seen)%bool then Some s else None
      end
  end.

(** [path.extname(path)] for a path that does not end in a slash: from
    the last dot of the last segment to its end; empty when there is no
    dot, when the last dot comes first, and for the segment [..]. *)
Definition extname (path : jsstring) : jsstring :=
  let seg := last_segment path in
  if jsstring_eqb seg [dot; dot] then []
  else match from_last_dot false seg with
       | Some ext => ext
       | None => []
       end.

(** [s] without the suffix [suffix], when it ends with it. *)
Definition strip_suffix (suffix s : jsstring) : option jsstring :=
  let n := (length s - length suffix)%nat in
  if (Nat.leb (length suffix) (length s)
      && jsstring_eqb (skipn n s) suffix)%bool
  then Some (firstn n s) else None.

(** [path.basename(path, ext)] for a path that does not end in a
    slash: nothing when [ext] is the whole path; else the last segment,
    without [ext] when it ends with it and is more than it. *)
Definition basename (path ext : jsstring) : jsstring :=
  let seg := last_segment path in
  if truthy ext then
    if jsstring_eqb ext path then []
    else
      match strip_suffix ext seg with
      | Some stem => if truthy stem then stem else seg
      | None => seg
      end
  else seg.

(** [path.join(dir, name)] for a file name below a directory. *)
Definition path_join (dir name : jsstring) : jsstring :=
  dir ++ slash :: name.

(** ** Prune: the test on a file path *)

(** Canonicalisation under the [i] flag, for the comparison with an
    ASCII letter or digit: the letters [A]-[Z] fold onto [a]-[z], and no
    code unit above 127 folds onto an ASCII one. *)
Definition fold_case (c : N) : N :=
  if (N.leb 65 c && N.leb c 90)%bool then (c + 32)%N else c.

Fixpoint matches_at (word s : jsstring) : bool :=
  match word, s with
  | [], _ => true
  | w :: word', c :: s' => N.eqb w (fold_case c) && matches_at word' s'
  | _ :: _, [] => false
  end.

(** The alternatives of the pattern. *)
Definition extensions : list jsstring :=
  map str ["bms"; "bme"; "bml"; "pms"; "bmson"; "ogg"; "wav"; "mp3"]%string.

(** The pattern matched at the start of [s]: a dot, then one of the
    alternatives. *)
Definition matches_here (s : jsstring) : bool :=
  match s with
  | c :: s' => N.eqb c dot && existsb (fun e => matches_at e s') extensions
  | [] => false
  end.

(** [/\.(?:bms|bme|bml|pms|bmson|ogg|wav|mp3)/i.test(filePath)]: the
    pattern matched at some position. *)
Fixpoint related (filePath : jsstring) : bool :=
  matches_here filePath ||
  match filePath with
  | [] => false
  | _ :: rest => related rest
  end.

(** The prune loop over [allFiles]. *)
Definition prune (W : World) (extractedDir : jsstring)
    (allFiles : list jsstring) : M unit :=
  for_of allFiles (fun filePath =>
    if negb (related filePath)
    then unlink W (extractedDir ++ slash :: filePath)
    else ret tt).

(** ** Sound preparation *)

(** The handler of one sound file: the [try], its [catch] and its
    [finally].  [soundsConverted] is the counter before the file. *)
Definition convert_sound (W : World) (src dest : jsstring) (total : nat)
    (soundsConverted : nat) (sound : jsstring) : M unit :=
  fun st =>
    let sourceFile := path_join src sound in
    let caught (e : js_error) (st : state) :=
      (str "error",
       match stderr e with
       | Some text => if truthy text then text else []
       | None => []
       end,
       record (WarnCannotConvert sourceFile) st) in
    let '(resultLogText, stderr_text, st1) :=
      match stat_size W sourceFile st with
      | (Ok size, st') =>
          if N.eqb size 0 then (str "skip; blank file", [], st')
          else
            match run_execa W (str "sox")
                    [sourceFile; str "-r"; str "44.1k"; str "-c"; str "2";
                     path_join dest
                       (basename sound (extname sound) ++ str ".wav")]
                    None None st' with
            | (Ok result_stderr, st'') => (str "ok", result_stderr, st'')
            | (Throw e, st'') => caught e st''
            end
      | (Throw e, st') => caught e st'
      end in
    let st2 :=
      record (InfoConverted (S soundsConverted) total sound
                            resultLogText stderr_text) st1 in
    unlink W sourceFile st2.

(** [Bluebird.map(sounds, ...)], one file after the other; it rejects
    with the first rejection of a handler. *)
Fixpoint convert_sounds (W : World) (src dest : jsstring) (total : nat)
    (soundsConverted : nat) (sounds : list jsstring) : M unit :=
  match sounds with
  | [] => ret tt
  | sound :: rest =>
      convert_sound W src dest total soundsConverted sound ;;
      convert_sounds W src dest total (S soundsConverted) rest
  end.

(** [prepareSounds(src, dest)] *)
Definition prepareSounds (W : World) (src dest : jsstring) : M unit :=
  mkdirp W dest ;;
  sounds <- glob W (str "*.{wav,mp3,ogg}") src false true ;;
  convert_sounds W src dest (length sounds) 0 sounds.

(** ** Chart selection *)

(** [charts.sort((a, b) => a.noteCount - b.noteCount)]: ascending by
    note count, charts of equal note count in their former order. *)
Fixpoint insert_chart (c : chart) (sorted : list chart) : list chart :=
  match sorted with
  | [] => [c]
  | x :: sorted' =>
      if (noteCount c <=? noteCount x)%Z then c :: sorted
      else x :: insert_chart c sorted'
  end.

Fixpoint sort_charts (cs : list chart) : list chart :=
  match cs with
  | [] => []
  | c :: cs' => insert_chart c (sort_charts cs')
  end.

(** [Math.floor((charts.length - 1) / 2)] *)
Definition median_index (n : nat) : nat := ((n - 1) / 2)%nat.

(** [charts[Math.floor((charts.length - 1) / 2)]] after the sort. *)
Definition select_chart (cs : list chart) : option chart :=
  let sorted := sort_charts cs in
  nth_error sorted (median_index (length sorted)).

(** ** The render pipeline *)

(** The end of the [try]: the output path is set, and the file moved
    when a destination was asked for. *)
Definition deliver (W : World) (songMp3Path : jsstring)
    (outputMp3Path : option jsstring) : M unit :=
  set_outFile songMp3Path ;;
  match outputMp3Path with
  | Some destination =>
      if truthy destination then
        execLog W (str "mv") [songMp3Path; destination] None None ;;
        set_outFile destination
      else ret tt
  | None => ret tt
  end.

(** The body of the [try] of [render]: stages, each followed by the
    [eventLog] of its event, and what comes after the last event. *)
Inductive pipeline : Type :=
| Finish (m : M unit)
| Stage (A : Type) (body : M A) (tag : string) (next : A -> pipeline).

Fixpoint run (W : World) (p : pipeline) : M unit :=
  match p with
  | Finish m => m
  | Stage body tag next =>
      fun st =>
        match body st with
        | (Ok a, st') => run W (next a) (eventLog W tag st')
        | (Throw e, st') => (Throw e, st')
        end
  end.

(** [`/tmp/bmsurge-renderer/${ObjectID.default.generate()}`] *)
Definition workDir (W : World) : jsstring :=
  str "/tmp/bmsurge-renderer/" ++ ObjectID_generate W.

Definition render_try (W : World) (url : jsstring)
    (outputMp3Path : option jsstring) : pipeline :=
  let workDir := workDir W in
  let downloadDir := workDir ++ str "/downloads" in
  let downloadedFilePath := workDir ++ str "/downloads/archive.zip" in
  let extractedDir := workDir ++ str "/extracted" in
  let convertedDir := workDir ++ str "/render/song" in
  let temporaryWavPath := workDir ++ str "/render.wav" in
  let songWavPath := workDir ++ str "/song.wav" in
  let songMp3Path := workDir ++ str "/song.mp3" in
  Stage
    (set_workingDirectory workDir ;;
     mkdirp W downloadDir ;;
     execLog W (str "wget") [str "-O" ++ downloadedFilePath; url]
             (Some 120000%Z) None)
    "render:downloaded" (fun _ =>
  Stage
    (mkdirp W extractedDir ;;
     execLog W (str "7z") [str "x"; downloadedFilePath]
             (Some 60000%Z) (Some extractedDir))
    "render:extracted" (fun _ =>
  Stage
    (allFiles <- glob W (str "**/*") extractedDir true false ;;
     prune W extractedDir allFiles)
    "render:unrelatedFilesRemoved" (fun _ =>
  Stage
    (prepareSounds W extractedDir convertedDir)
    "render:converted" (fun _ =>
  Stage
    (chartFiles <- glob W (str "*.{bm[sel],pms,bmson}") extractedDir
                        false true ;;
     for_of chartFiles (fun file =>
       let extname := extname file in
       let target :=
         convertedDir ++ slash :: basename file extname
                      ++ str ".sjis" ++ extname in
       rename W (extractedDir ++ slash :: file) target))
    "render:chartsMoved" (fun _ =>
  Stage
    (tool <- realpath W (str "./node_modules/.bin/bemuse-tools") ;;
     execLog W tool [str "index"] (Some 30000%Z)
             (Some (workDir ++ str "/render")))
    "render:indexed" (fun _ =>
  Stage
    (data <- readIndex W (workDir ++ str "/render/index.json") ;;
     match find (fun s => jsstring_eqb (id s) (str "song")) (songs data) with
     | None => throw (new_Error W "No song found")
     | Some song =>
         let charts := charts song in
         if Nat.eqb (length charts) 0
         then throw (new_Error W "No usable chart found")
         else
           match select_chart charts with
           | Some selectedChart => ret selectedChart
           | None =>
               throw (new_TypeError W
                        "Cannot read property 'file' of undefined")
           end
     end)
    "render:chartSelected" (fun selectedChart =>
  let sourceBmsPath := workDir ++ str "/render/song/" ++ file selectedChart in
  Stage
    (execLog W (str "bms-renderer") [sourceBmsPath; temporaryWavPath]
             (Some 300000%Z) (Some workDir))
    "render:rendered" (fun _ =>
  Stage
    (execLog W (str "wavegain") [str "-y"; temporaryWavPath]
             (Some 15000%Z) (Some workDir))
    "render:normalized" (fun _ =>
  Stage
    (execLog W (str "sox")
             [temporaryWavPath; str "-b"; str "16"; songWavPath;
              str "silence"; str "1"; str "0"; str "0.1%";
              str "reverse";
              str "silence"; str "1"; str "0"; str "0.1%";
              str "reverse"]
             (Some 30000%Z) (Some workDir) ;;
     unlink W temporaryWavPath)
    "render:trimmed" (fun _ =>
  Stage
    (execLog W (str "lame") [str "-b320"; songWavPath; songMp3Path]
             (Some 60000%Z) None ;;
     unlink W songWavPath)
    "render:encoded" (fun _ =>
  Finish (deliver W songMp3Path outputMp3Path)))))))))))).

(** The events of the stages, in the order of the stages. *)
Definition stage_tags : list string :=
  ["render:downloaded"; "render:extracted"; "render:unrelatedFilesRemoved";
   "render:converted"; "render:chartsMoved"; "render:indexed";
   "render:chartSelected"; "render:rendered"; "render:normalized";
   "render:trimmed"; "render:encoded"]%string.

(** The pipeline [p], started in [st], completes the stages of the
    events [done] and then fails with [e] in the stage of the event
    [tag], before that event is logged. *)
Fixpoint fails_at (W : World) (p : pipeline) (st : state)
    (done : list string) (tag : string) (e : js_error) : Prop :=
  match p with
  | Finish _ => False
  | Stage body t next =>
      match body st with
      | (Throw e', _) => done = [] /\ tag = t /\ e = e'
      | (Ok a, st') =>
          exists done',
            done = t :: done'
            /\ fails_at W (next a) (eventLog W t st') done' tag e
      end
  end.

(** The pipeline [p], started in [st], completes all its stages, of
    events [done], and is in [st'] when the last event is logged. *)
Fixpoint completes (W : World) (p : pipeline) (st : state)
    (done : list string) (st' : state) : Prop :=
  match p with
  | Finish _ => done = [] /\ st' = st
  | Stage body t next =>
      match body st with
      | (Throw _, _) => False
      | (Ok a, st1) =>
          exists done',
            done = t :: done'
            /\ completes W (next a) (eventLog W t st1) done' st'
      end
  end.

(** [render(url, outputMp3Path, outputDiagnostics)]; the diagnostics
    object is the one of the state, and the state returned holds it as
    [render] leaves it. *)
Definition render (W : World) (url : jsstring)
    (outputMp3Path : option jsstring) (st : state) : state :=
  let st1 := eventLog W "render:start" st in
  let st2 :=
    match run W (render_try W url outputMp3Path) st1 with
    | (Ok _, st') => st'
    | (Throw error, st') => set_error error st'
    end in
  set_finishedAt W st2.

(** The diagnostics of the callers: [{ events: [] }] by default,
    [{ operationId, events: [] }] in the server. *)
Definition new_diagnostics (operationId : option jsstring)
  : OutputDiagnostics :=
  mkDiagnostics operationId None [] None None None.

(** The [render <url>] command. *)
Definition render_command (W : World) (url : jsstring)
    (output : option jsstring) (st : state) : state :=
  render W url output (mkState (new_diagnostics None) (trace st) (clock st)).

(** ** The render service *)

(** What the handler answers: [res.status(code).send(body)],
    [res.json(result)], or [next(err)]. *)
Inductive http_response : Type :=
| Status (code : N) (body : jsstring)
| Json (result : OutputDiagnostics)
| Next (err : js_error).

(** [app.put('/renders/:operationId', ...)] on [req.params.operationId]
    and [req.body.url]. *)
Definition put_render (W : World) (operationId : jsstring)
    (url : option jsstring) (st : state) : http_response * state :=
  if negb (starts_with (str "http") (ToString url)) then
    (Status 400 (str "URL must be valid"), st)
  else
    let result := new_diagnostics (Some operationId) in
    let st1 :=
      render W (ToString url) None (mkState result (trace st) (clock st)) in
    let bucketName := BMSURGE_RENDER_OUTPUT_BUCKET W in
    let uploaded :=
      match outFile (diagnostics st1) with
      | Some path =>
          if truthy path then
            let destination := operationId ++ str ".mp3" in
            match perform (Upload bucketName path destination)
                    (fun h => upload W h bucketName path destination)
                    st1 with
            | (Ok _, st2) => (Ok tt, eventLog W "uploaded" st2)
            | (Throw err, st2) => (Throw err, st2)
            end
          else (Ok tt, st1)
      | None => (Ok tt, st1)
      end in
    match uploaded with
    | (Ok _, st3) => (Json (diagnostics st3), st3)
    | (Throw err, st3) => (Next err, st3)
    end.

(** ** Notions to state the properties with *)

(** From [st] to [st'] the diagnostics gained the events [tags], in
    this order, and its identifier, output path, error and finish time
    were left alone. *)
Definition logged (st st' : state) (tags : list string) : Prop :=
  let d := diagnostics st in
  let d' := diagnostics st' in
  operationId d' = operationId d
  /\ outFile d' = outFile d
  /\ error d' = error d
  /\ finishedAt d' = finishedAt d
  /\ exists new, events d' = events d ++ new
                 /\ map event new = map str tags.

(** A computation that logs no event and leaves the outcome alone. *)
Definition quiet {A} (m : M A) : Prop :=
  forall st, logged st (snd (m st)) [].

Fixpoint quiet_stages (p : pipeline) : Prop :=
  match p with
  | Finish _ => True
  | Stage body _ next => quiet body /\ forall a, quiet_stages (next a)
  end.

(** Whatever the stages return, the pipeline ends with [m]. *)
Fixpoint ends_with (p : pipeline) (m : M unit) : Prop :=
  match p with
  | Finish m' => m' = m
  | Stage _ _ next => forall a, ends_with (next a) m
  end.

(** Whatever the stages return, their events are [tags]. *)
Fixpoint has_tags (p : pipeline) (tags : list string) : Prop :=
  match p, tags with
  | Finish _, [] => True
  | Stage _ t next, t' :: tags' =>
      t = t' /\ forall a, has_tags (next a) tags'
  | _, _ => False
  end.

(** The allow-list read as a list of file extensions: the name ends
    with a dot and one of the extensions, letters compared without
    case. *)
Definition has_allowed_extension (name : jsstring) : bool :=
  existsb
    (fun e =>
       match strip_suffix (dot :: e) (map fold_case name) with
       | Some _ => true
       | None => false
       end)
    extensions.

(** A computation that reads no clock and leaves the events alone. *)
Definition still {A} (m : M A) : Prop :=
  forall st,
    clock (snd (m st)) = clock st
    /\ events (diagnostics (snd (m st))) = events (diagnostics st).

Fixpoint still_stages (p : pipeline) : Prop :=
  match p with
  | Finish m => still m
  | Stage body _ next => still body /\ forall a, still_stages (next a)
  end.

(** From [st] to [st'] the clock was read [n] times, each reading the
    time of one more event, in this order. *)
Definition stamped (W : World) (st st' : state) (n : nat) : Prop :=
  clock st' = (clock st + n)%nat
  /\ exists new,
       events (diagnostics st') = events (diagnostics st) ++ new
       /\ map time new = map (Date_now W) (seq (clock st) n).

(** A clock that does not go back. *)
Definition monotone (W : World) : Prop :=
  forall i j, (i <= j)%nat -> (Date_now W i <= Date_now W j)%Z.

End Worker.

(* ================================================================== *)
(** * Concrete surroundings, to run the definitions on *)
(* ================================================================== *)

Module Samples.
Import JS.

(** ** A parser for a fragment of JSON

    Literals, integers, strings without escapes, arrays and objects;
    an instance of [JSON.parse] to evaluate the dispatcher on. *)

Fixpoint skip_ws (s : jsstring) : jsstring :=
  match s with
  | c :: s' =>
      if (N.eqb c 32 || N.eqb c 9 || N.eqb c 10 || N.eqb c 13)%bool
      then skip_ws s' else s
  | [] => []
  end.

Definition is_digit (c : N) : bool := (N.leb 48 c && N.leb c 57)%bool.

Fixpoint digits (acc : Z) (s : jsstring) : Z * jsstring :=
  match s with
  | c :: s' =>
      if is_digit c then digits (acc * 10 + Z.of_N (c - 48)) s' else (acc, s)
  | [] => (acc, [])
  end.

Fixpoint string_body (s : jsstring) : option (jsstring * jsstring) :=
  match s with
  | [] => None
  | c :: s' =>
      if N.eqb c quote then Some ([], s')
      else if (N.eqb c 92 || N.ltb c 32)%bool then None
      else match string_body s' with
           | Some (body, rest) => Some (c :: body, rest)
           | None => None
           end
  end.

(** A later member replaces an earlier one of the same name. *)
Definition set_member (k : jsstring) (v : json)
    (fields : list (jsstring * json)) : list (jsstring * json) :=
  filter (fun kv => negb (jsstring_eqb (fst kv) k)) fields ++ [(k, v)].

Fixpoint value (fuel : nat) (s : jsstring) : option (json * jsstring) :=
  match fuel with
  | O => None
  | S fuel' =>
      let fix elements (k : nat) (acc : list json) (s : jsstring)
          : option (json * jsstring) :=
        match k with
        | O => None
        | S k' =>
            match value fuel' s with
            | Some (v, rest) =>
                match skip_ws rest with
                | 44%N :: rest' => elements k' (acc ++ [v]) rest'
                | 93%N :: rest' => Some (JArr (acc ++ [v]), rest')
                | _ => None
                end
            | None => None
            end
        end in
      let fix members (k : nat) (acc : list (jsstring * json))
          (s : jsstring) : option (json * jsstring) :=
        match k with
        | O => None
        | S k' =>
            match skip_ws s with
            | 34%N :: s1 =>
                match string_body s1 with
                | Some (name, s2) =>
                    match skip_ws s2 with
                    | 58%N :: s3 =>
                        match value fuel' s3 with
                        | Some (v, rest) =>
                            match skip_ws rest with
                            | 44%N :: rest' =>
                                members k' (set_member name v acc) rest'
                            | 125%N :: rest' =>
                                Some (JObj (set_member name v acc), rest')
                            | _ => None
                            end
                        | None => None
                        end
                    | _ => None
                    end
                | None => None
                end
            | _ => None
            end
        end in
      match skip_ws s with
      | 110%N :: 117%N :: 108%N :: 108%N :: rest => Some (JNull, rest)
      | 116%N :: 114%N :: 117%N :: 101%N :: rest => Some (JBool true, rest)
      | 102%N :: 97%N :: 108%N :: 115%N :: 101%N :: rest => Some (JBool false, rest)
      | 34%N :: rest =>
          match string_body rest with
          | Some (body, rest') => Some (JStr body, rest')
          | None => None
          end
      | 91%N :: rest =>
          match skip_ws rest with
          | 93%N :: rest' => Some (JArr [], rest')
          | _ => elements fuel' [] rest
          end
      | 123%N :: rest =>
          match skip_ws rest with
          | 125%N :: rest' => Some (JObj [], rest')
          | _ => members fuel' [] rest
          end
      | 45%N :: c :: rest =>
          if is_digit c
          then let '(n, rest') := digits 0 (c :: rest) in Some (JNum (- n), rest')
          else None
      | c :: rest =>
          if is_digit c
          then let '(n, rest') := digits 0 (c :: rest) in Some (JNum n, rest')
          else None
      | [] => None
      end
  end.

Definition syntax_error : js_error :=
  mkError (str "SyntaxError: Unexpected token in JSON") None None.

Definition parse (text : jsstring) : result json :=
  match value (S (length text)) text with
  | Some (v, rest) =>
      match skip_ws rest with
      | [] => Ok v
      | _ :: _ => Throw syntax_error
      end
  | None => Throw syntax_error
  end.

(** ** Surroundings of the dispatcher *)

(** The text [{"a":1}] with [n] in place of [1]. *)
Definition a_is (n : string) : jsstring :=
  str "{" ++ [quote] ++ str "a" ++ [quote] ++ str ":" ++ str n ++ str "}".

(** A diagnostics text as the render service sends it after a failed
    render: an error description, no output file, no upload time. *)
Definition failed_render_text : jsstring :=
  str "{" ++ [quote] ++ str "operationId" ++ [quote] ++ str ":"
  ++ [quote] ++ str "op" ++ [quote] ++ str ","
  ++ [quote] ++ str "events" ++ [quote] ++ str ":[],"
  ++ [quote] ++ str "error" ++ [quote] ++ str ":"
  ++ [quote] ++ str "Error: No song found" ++ [quote] ++ str ","
  ++ [quote] ++ str "finishedAt" ++ [quote] ++ str ":1560000000000}".

Definition connection_refused : js_error :=
  mkError (str "Error: connect ECONNREFUSED") None None.

(** A dispatcher environment around a given HTTP client. *)
Definition env (put : jsstring -> jsstring -> result jsstring)
  : Dispatcher.Env :=
  Dispatcher.mkEnv parse (str "http://worker:8080")
    (fun s => str "operation") put
    (fun s => (1560000000000 + Z.of_N (Dispatcher._id s))%Z).

(** A freshly imported record. *)
Definition imported (n : N) (u : string) : Dispatcher.song :=
  Dispatcher.mkSong n (str u) (str "event1") 1550000000000%Z
                    None None None.

(** ** Surroundings of the worker *)

Definition frames : jsstring :=
  newline :: str "    at render (/app/src/index.js:154:13)".

Definition object_id : jsstring := str "5d0a3c0e9f1b2a0001a2b3c4".

Definition work_dir : jsstring := str "/tmp/bmsurge-renderer/" ++ object_id.

(** A manifest with four charts, of note counts 5, 2, 9 and 2. *)
Definition four_charts : list Worker.chart :=
  [Worker.mkChart (str "hyper.sjis.bms") 5;
   Worker.mkChart (str "easy.sjis.bms") 2;
   Worker.mkChart (str "another.sjis.bms") 9;
   Worker.mkChart (str "normal.sjis.bms") 2].

Definition manifest : Worker.index_json :=
  Worker.mkIndex [Worker.mkSongEntry (str "song") four_charts].

(** What the three [glob.sync] calls find in an archive that holds the
    files [allFiles] and, at its top, the entries [sounds] and
    [chartFiles]. *)
Definition globbing (allFiles sounds chartFiles : list jsstring)
    (pattern : jsstring) : list jsstring :=
  if jsstring_eqb pattern (str "**/*") then allFiles
  else if jsstring_eqb pattern (str "*.{wav,mp3,ogg}") then sounds
  else chartFiles.

(** A world in which the archive holds [allFiles], [sounds] and
    [chartFiles], every file has 1024 bytes, and child processes,
    removals and uploads answer as [exec], [remove] and [put] say. *)
Definition world (allFiles sounds chartFiles : list jsstring)
    (exec : jsstring -> list jsstring -> result jsstring)
    (remove : jsstring -> result unit)
    (put : result unit) : Worker.World :=
  Worker.mkWorld object_id
    (fun n => (1560000000000 + Z.of_nat n)%Z)
    frames
    (Some (str "renders"))
    (fun _ _ => Ok tt)
    (fun _ command args _ _ => exec command args)
    (fun _ pattern _ _ _ => Ok (globbing allFiles sounds chartFiles pattern))
    (fun _ path => remove path)
    (fun _ _ _ => Ok tt)
    (fun _ _ => Ok (str "/app/node_modules/.bin/bemuse-tools"))
    (fun _ _ => Ok manifest)
    (fun _ _ => Ok 1024%N)
    (fun _ _ _ _ => put).

Definition archive_files : list jsstring :=
  [str "a.bms"; str "b.txt"; str "c.wav"].

(** Every child process exits with status 0, every removal and the
    upload succeed. *)
Definition calm : Worker.World :=
  world archive_files [str "c.wav"] [str "a.bms"]
        (fun _ _ => Ok []) (fun _ => Ok tt) (Ok tt).

(** The child [command] fails with [e], the others exit with 0. *)
Definition failing (command : string) (e : js_error) : Worker.World :=
  world archive_files [str "c.wav"] [str "a.bms"]
        (fun c _ => if jsstring_eqb c (str command) then Throw e else Ok [])
        (fun _ => Ok tt) (Ok tt).

Definition timed_out : js_error :=
  mkError (str "Error: Command timed out after 300000 milliseconds: "
           ++ str "bms-renderer" ++ frames)
          (Some []) None.

Definition moved_nowhere : js_error :=
  mkError (str "Error: Command failed with exit code 1: mv" ++ frames)
          (Some (str "mv: cannot create regular file: No such file or directory"))
          None.

Definition upload_refused : js_error :=
  mkError (str "Error: A bucket name is needed to use Cloud Storage."
           ++ frames) None None.

Definition is_a_directory : js_error :=
  mkError (str "Error: EISDIR: illegal operation on a directory, unlink"
           ++ frames) None None.

Definition cannot_decode : js_error :=
  mkError (str "Error: Command failed with exit code 2: sox" ++ frames)
          (Some (str "sox FAIL formats: can't open input")) None.

(** The upload fails. *)
Definition no_bucket : Worker.World :=
  world archive_files [str "c.wav"] [str "a.bms"]
        (fun _ _ => Ok []) (fun _ => Ok tt) (Throw upload_refused).

(** The top of the archive holds a directory [bgm.ogg] beside the file
    [c.wav]: the converter cannot read it and it cannot be unlinked. *)
Definition with_directory : Worker.World :=
  world [str "a.bms"; str "c.wav"] [str "bgm.ogg"; str "c.wav"]
        [str "a.bms"]
        (fun c args =>
           if (jsstring_eqb c (str "sox")
               && match args with
                  | source :: _ =>
                      jsstring_eqb source
                        (work_dir ++ str "/extracted/bgm.ogg")
                  | [] => false
                  end)%bool
           then Throw cannot_decode else Ok [])
        (fun path =>
           if jsstring_eqb path (work_dir ++ str "/extracted/bgm.ogg")
           then Throw is_a_directory else Ok tt)
        (Ok tt).


(** The state of a process that has done nothing yet, with the
    diagnostics [{ events: [] }]. *)
Definition start : Worker.state :=
  Worker.mkState (Worker.new_diagnostics None) [] 0.

End Samples.

(* ================================================================== *)
(** * Properties of the dispatcher *)
(* ================================================================== *)

Section Strings.
Import JS.

Lemma jsstring_eqb_refl (a : jsstring) : jsstring_eqb a a = true.
Proof.
  induction a as [|x a IH]; simpl; [reflexivity|].
  now rewrite N.eqb_refl, IH.
Qed.

Lemma jsstring_eqb_eq (a b : jsstring) : jsstring_eqb a b = true <-> a = b.
Proof.
  split.
  - revert b; induction a as [|x a IH]; intros [|y b]; simpl;
      try congruence.
    intros H. apply andb_true_iff in H as [Hx Hab].
    apply N.eqb_eq in Hx. apply IH in Hab. congruence.
  - intros ->. apply jsstring_eqb_refl.
Qed.

(** [trim_start] leaves nothing exactly when every code unit is white
    space. *)
Lemma trim_start_nil (s : jsstring) :
  trim_start s = [] <-> Forall (fun c => is_white_space c = true) s.
Proof.
  induction s as [|c s IH]; simpl.
  - split; auto.
  - destruct (is_white_space c) eqn:Hc.
    + rewrite IH. split; intros H.
      * constructor; assumption.
      * inversion H; assumption.
    + split; [discriminate|]. intros H. inversion H. congruence.
Qed.

Lemma trim_start_snoc (s : jsstring) (c : N) :
  is_white_space c = false -> trim_start (s ++ [c]) <> [].
Proof.
  intros Hc H. apply trim_start_nil in H.
  apply Forall_app in H as [_ H]. inversion H. congruence.
Qed.

Lemma trim_start_head (s : jsstring) :
  match trim_start s with
  | [] => True
  | c :: _ => is_white_space c = false
  end.
Proof.
  induction s as [|c s IH]; simpl; [exact I|].
  destruct (is_white_space c) eqn:Hc; [exact IH | exact Hc].
Qed.

(** A line survives [r => r.trim()] exactly when it holds a code unit
    that is not white space. *)
Lemma nonblank_iff (r : jsstring) :
  truthy (trim r) = true <-> Exists (fun c => is_white_space c = false) r.
Proof.
  unfold trim. split.
  - intros H. destruct (trim_start r) as [|c t] eqn:Ht.
    + simpl in H. discriminate.
    + clear H. apply Exists_exists.
      assert (Hn : ~ Forall (fun c => is_white_space c = true) r).
      { intros HF. apply trim_start_nil in HF. congruence. }
      apply neg_Forall_Exists_neg in Hn.
      * apply Exists_exists in Hn as (x & Hx & Hw). exists x. split; auto.
        destruct (is_white_space x); congruence.
      * intros x. destruct (is_white_space x); [left|right]; congruence.
  - intros H. destruct (trim_start r) as [|c t] eqn:Ht.
    + apply trim_start_nil in Ht. apply Exists_exists in H as (x & Hx & Hw).
      rewrite Forall_forall in Ht. specialize (Ht x Hx). congruence.
    + pose proof (trim_start_head r) as Hh. rewrite Ht in Hh.
      simpl rev.
      destruct (trim_start (rev t ++ [c])) as [|d u] eqn:Hu.
      * exfalso. eapply trim_start_snoc; eauto.
      * destruct (rev (d :: u)) eqn:Hr; [|reflexivity].
        apply (f_equal (@rev N)) in Hr. rewrite rev_involutive in Hr.
        discriminate.
Qed.

Lemma pop_snoc {A} (l : list A) (x : A) : pop (l ++ [x]) = Some x.
Proof.
  induction l as [|y l IH]; simpl; [reflexivity|].
  destruct (l ++ [x]) eqn:E; [destruct l; discriminate | exact IH].
Qed.

Lemma pop_some {A} (l : list A) (x : A) :
  pop l = Some x <-> exists pre, l = pre ++ [x].
Proof.
  split.
  - induction l as [|y l IH]; simpl; [discriminate|].
    destruct l as [|z l'].
    + intros [= ->]. exists []. reflexivity.
    + intros H. destruct (IH H) as [pre Hpre]. exists (y :: pre).
      simpl. now rewrite Hpre.
  - intros [pre ->]. apply pop_snoc.
Qed.

Lemma pop_none {A} (l : list A) : pop l = None <-> l = [].
Proof.
  split; [|intros ->; reflexivity].
  destruct l as [|y l]; [reflexivity|].
  intros H. exfalso. revert y H.
  induction l as [|z l IH]; intros y H; simpl in H; [discriminate|].
  exact (IH z H).
Qed.

Lemma filter_nil_iff {A} (p : A -> bool) (l : list A) :
  filter p l = [] <-> Forall (fun x => p x = false) l.
Proof.
  induction l as [|x l IH]; simpl.
  - split; auto.
  - destruct (p x) eqn:Hx.
    + split; [discriminate|]. intros H. inversion H. congruence.
    + rewrite IH. split; intros H; [constructor; auto | now inversion H].
Qed.

(** The last element that satisfies [p]. *)
Lemma pop_filter_some {A} (p : A -> bool) (l : list A) (x : A) :
  pop (filter p l) = Some x <->
  exists pre post,
    l = pre ++ x :: post /\ p x = true /\ Forall (fun y => p y = false) post.
Proof.
  split.
  - intros H. apply pop_some in H as [fpre Hf].
    revert fpre Hf. induction l as [|y l IH]; intros fpre Hf; simpl in Hf.
    + destruct fpre; discriminate.
    + destruct (p y) eqn:Hy.
      * destruct fpre as [|z fpre]; simpl in Hf.
        -- injection Hf as -> Hl. exists [], l. split; [reflexivity|].
           split; [assumption|]. now apply filter_nil_iff.
        -- injection Hf as -> Hl. destruct (IH _ Hl) as (pre & post & -> & Hx & Hp).
           exists (z :: pre), post. auto.
      * destruct (IH _ Hf) as (pre & post & -> & Hx & Hp).
        exists (y :: pre), post. auto.
  - intros (pre & post & -> & Hx & Hp).
    rewrite filter_app. simpl. rewrite Hx.
    apply filter_nil_iff in Hp. rewrite Hp. apply pop_snoc.
Qed.

Lemma pop_filter_none {A} (p : A -> bool) (l : list A) :
  pop (filter p l) = None <-> Forall (fun y => p y = false) l.
Proof.
  rewrite pop_none. apply filter_nil_iff.
Qed.

End Strings.

Section Dispatch.
Import JS Dispatcher.

(** The line handed to the parser, when there is one, is the last line
    of the body that is not blank. *)
Lemma last_line_some (data l : jsstring) :
  last_line data = Some l <->
  exists pre post,
    split newline data = pre ++ l :: post
    /\ truthy (trim l) = true
    /\ Forall (fun r => truthy (trim r) = false) post.
Proof.
  unfold last_line.
  apply (pop_filter_some (fun r => truthy (trim r))).
Qed.

Lemma last_line_none (data : jsstring) :
  last_line data = None <->
  Forall (fun r => truthy (trim r) = false) (split newline data).
Proof.
  unfold last_line.
  apply (pop_filter_none (fun r => truthy (trim r))).
Qed.

(** ** Updates of the collection *)

Lemma updateOne_at (id : N) (f : song -> song) (pre post : collection)
    (s : song) :
  _id s = id ->
  Forall (fun x => _id x <> id) pre ->
  updateOne id f (pre ++ s :: post) = pre ++ f s :: post.
Proof.
  intros Hs Hpre. induction pre as [|x pre IH]; simpl.
  - apply N.eqb_eq in Hs. now rewrite Hs.
  - inversion Hpre as [|? ? Hx Hrest]; subst.
    apply N.eqb_neq in Hx. rewrite Hx. f_equal. now apply IH.
Qed.

Lemma attempt_id (E : Env) (s x : song) : _id (attempt E s x) = _id x.
Proof.
  unfold attempt.
  destruct (axios_put E _ _) as [data|e]; [|reflexivity].
  destruct (parse_response E data); reflexivity.
Qed.

Lemma cycle_id (E : Env) (s : song) : _id (cycle E s) = _id s.
Proof.
  unfold cycle. destruct (pending s); [apply attempt_id | reflexivity].
Qed.

Lemma work_from (E : Env) (l done : collection) :
  NoDup (map _id (done ++ l)) ->
  fold_left (fun c s => updateOne (_id s) (attempt E s) c)
            (filter pending l) (done ++ l)
  = done ++ map (cycle E) l.
Proof.
  revert done. induction l as [|s l IH]; intros done Hnd; simpl.
  - reflexivity.
  - assert (Hpre : Forall (fun x => _id x <> _id s) done).
    { rewrite map_app in Hnd. simpl in Hnd.
      apply NoDup_remove_2 in Hnd.
      apply Forall_forall. intros x Hx Heq. apply Hnd.
      apply in_or_app. left. rewrite <- Heq. now apply in_map. }
    assert (Hnext : forall s', _id s' = _id s ->
                     NoDup (map _id ((done ++ [s']) ++ l))).
    { intros s' Hs'. rewrite <- app_assoc. simpl.
      rewrite map_app in *. simpl in *. now rewrite Hs'. }
    unfold cycle at 1. destruct (pending s) eqn:Hp; simpl.
    + rewrite (@updateOne_at (_id s) (attempt E s) done l s eq_refl Hpre).
      change (done ++ attempt E s s :: l)
        with (done ++ [attempt E s s] ++ l).
      rewrite app_assoc, IH by (apply Hnext, attempt_id).
      now rewrite <- app_assoc.
    + change (done ++ s :: l) with (done ++ [s] ++ l).
      rewrite app_assoc, IH by (now apply Hnext).
      now rewrite <- app_assoc.
Qed.

(** With distinct identifiers, a dispatch cycle rewrites each pending
    record by its own attempt and leaves the others. *)
Lemma work_map (E : Env) (c : collection) :
  NoDup (map _id c) -> work E c = map (cycle E) c.
Proof.
  intros Hnd. unfold work, find_pending.
  exact (work_from E c [] Hnd).
Qed.

Lemma work_ids (E : Env) (c : collection) :
  NoDup (map _id c) -> map _id (work E c) = map _id c.
Proof.
  intros Hnd. rewrite work_map by assumption. rewrite map_map.
  apply map_ext, cycle_id.
Qed.

Lemma same_id_same_record (c : collection) (a b : song) :
  NoDup (map _id c) -> In a c -> In b c -> _id a = _id b -> a = b.
Proof.
  induction c as [|x c IH]; simpl; intros Hnd Ha Hb Hid; [contradiction|].
  inversion Hnd as [|? ? Hx Hc]; subst.
  destruct Ha as [->|Ha], Hb as [->|Hb]; auto.
  - exfalso. apply Hx. rewrite Hid. now apply in_map.
  - exfalso. apply Hx. rewrite <- Hid. now apply in_map.
Qed.

(** The record that the cycle leaves for a selected job. *)
Lemma work_record (E : Env) (c : collection) (s : song) :
  NoDup (map _id c) -> In s (find_pending c) ->
  In (attempt E s s) (work E c)
  /\ forall s', In s' (work E c) -> _id s' = _id s -> s' = attempt E s s.
Proof.
  intros Hnd Hs. apply filter_In in Hs as [Hin Hp].
  assert (Hthere : In (attempt E s s) (work E c)).
  { rewrite work_map by assumption.
    replace (attempt E s s) with (cycle E s)
      by (unfold cycle; now rewrite Hp).
    now apply in_map. }
  split; [exact Hthere|].
  intros s' Hs' Hid.
  apply (@same_id_same_record (work E c)); auto.
  - rewrite work_ids; assumption.
  - now rewrite attempt_id.
Qed.

End Dispatch.

Section DispatcherClaims.
Import JS Dispatcher.

(** C4.  Of a response body the dispatcher hands to [JSON.parse] the
    last line that is not blank after trimming: the text parsed is the
    [pop] of the non-blank lines; a line [l] is that text exactly when
    the body splits into earlier lines, [l], and later lines that are
    all blank; there is no such text exactly when every line is blank;
    and a line is not blank exactly when it holds a code unit that is
    not white space.  For the lines [{"a":1}], the empty line and
    [{"a":2}] the text parsed is [{"a":2}], whose value is the object
    [{a:2}]. *)
Theorem last_nonblank_line_is_parsed :
  forall (E : Env) (data : jsstring),
    parse_response E data = JSON_parse E (ToString (last_line data))
    /\ (forall l,
          last_line data = Some l <->
          exists pre post,
            split newline data = pre ++ l :: post
            /\ truthy (trim l) = true
            /\ Forall (fun r => truthy (trim r) = false) post)
    /\ (last_line data = None <->
        Forall (fun r => truthy (trim r) = false) (split newline data))
    /\ (forall r,
          truthy (trim r) = true <->
          Exists (fun c => is_white_space c = false) r)
    /\ split newline
         (join newline [Samples.a_is "1"; []; Samples.a_is "2"])
       = [Samples.a_is "1"; []; Samples.a_is "2"]
    /\ parse_response E
         (join newline [Samples.a_is "1"; []; Samples.a_is "2"])
       = JSON_parse E (Samples.a_is "2")
    /\ Samples.parse (Samples.a_is "2") = Ok (JObj [(str "a", JNum 2)]).
Proof.
  intros E data. split; [reflexivity|].
  split; [intros l; apply last_line_some|].
  split; [apply last_line_none|].
  split; [apply nonblank_iff|].
  split; [reflexivity|]. split; reflexivity.
Qed.

(** C10.  When the HTTP call for a selected job answers with a success
    status and the last non-blank line of the answer parses to [v], the
    cycle leaves for that job the record with [renderResult] set to [v]
    and [renderedAt] to the time of the write, whatever [v] holds (an
    error description and no output file included): [renderError] is as
    it was before the attempt. *)
Theorem parsed_response_is_stored_as_result :
  forall (E : Env) (c : collection) (s : song) (data l : jsstring)
         (v : json),
    NoDup (map _id c) ->
    In s (find_pending c) ->
    axios_put E (WORKER_URL E ++ str "/renders/" ++ uuidv4 E s) (url s)
      = Ok data ->
    last_line data = Some l ->
    JSON_parse E l = Ok v ->
    let s' := set_result v (new_Date E s) s in
    In s' (work E c)
    /\ (forall x, In x (work E c) -> _id x = _id s -> x = s')
    /\ renderResult s' = Some v
    /\ renderedAt s' = Some (new_Date E s)
    /\ renderError s' = renderError s.
Proof.
  intros E c s data l v Hnd Hs Hput Hl Hv s'.
  assert (Ha : attempt E s = set_result v (new_Date E s)).
  { unfold attempt. rewrite Hput. unfold parse_response.
    rewrite Hl. simpl. now rewrite Hv. }
  destruct (work_record E c s Hnd Hs) as [Hin Huniq].
  rewrite Ha in Hin, Huniq.
  repeat split; assumption.
Qed.

Lemma parsed_response_is_stored_as_result_witness :
  let E := Samples.env (fun _ _ => Ok Samples.failed_render_text) in
  let s := Samples.imported 1 "http://example.com/a.zip" in
  exists v,
    In (set_result v (new_Date E s) s) (work E [s])
    /\ has_field (str "error") v = true
    /\ has_field (str "outFile") v = false.
Proof.
  intros E s.
  destruct (Samples.parse Samples.failed_render_text) as [v|e] eqn:Hv;
    [|vm_compute in Hv; discriminate].
  exists v. split.
  - refine (proj1 (@parsed_response_is_stored_as_result E [s] s
                     Samples.failed_render_text Samples.failed_render_text v
                     _ _ _ _ _)).
    + repeat constructor. simpl. tauto.
    + left. reflexivity.
    + reflexivity.
    + vm_compute. reflexivity.
    + exact Hv.
  - vm_compute in Hv. injection Hv as <-. split; reflexivity.
Defined.

(** C1, as the code has it.  A dispatch cycle selects exactly the
    records whose render result has no [uploadedAt] field, among them
    every record without a render result, and leaves the other records
    as they are.  After the cycle the record of a selected job is the
    one its attempt wrote, which has a render timestamp and a result or
    an error; it is selected by the next query exactly when it is still
    pending: an error leaves the eligibility as it was, and a result
    makes the record ineligible exactly when it carries [uploadedAt]. *)
Theorem selected_iff_no_uploadedAt :
  forall (E : Env) (c : collection),
    NoDup (map _id c) ->
    (forall s, In s (find_pending c) <-> In s c /\ pending s = true)
    /\ (forall s, In s c -> renderResult s = None -> In s (find_pending c))
    /\ (forall s, In s c -> pending s = false -> In s (work E c))
    /\ (forall s, In s (find_pending c) ->
          In (attempt E s s) (work E c)
          /\ attempted (attempt E s s)
          /\ (In (attempt E s s) (find_pending (work E c))
              <-> pending (attempt E s s) = true))
    /\ (forall s description now,
          pending (set_error description now s) = pending s)
    /\ (forall s v now,
          pending (set_result v now s)
          = negb (path_exists (str "uploadedAt") v)).
Proof.
  intros E c Hnd.
  split; [intros s; apply filter_In|].
  split.
  { intros s Hin Hr. apply filter_In. split; [assumption|].
    unfold pending. now rewrite Hr. }
  split.
  { intros s Hin Hp. rewrite work_map by assumption.
    replace s with (cycle E s) at 1 by (unfold cycle; now rewrite Hp).
    now apply in_map. }
  split.
  { intros s Hs. destruct (work_record E c s Hnd Hs) as [Hin _].
    split; [assumption|]. split.
    - unfold attempted, attempt.
      destruct (axios_put E _ _) as [data|e];
        [destruct (parse_response E data)|];
        (split; [discriminate|]); simpl; [left | right | right];
        discriminate.
    - unfold find_pending. rewrite filter_In. tauto. }
  split; reflexivity.
Qed.

Lemma selected_iff_no_uploadedAt_witness :
  let E := Samples.env (fun _ _ => Ok Samples.failed_render_text) in
  let s := Samples.imported 1 "http://example.com/a.zip" in
  In s (find_pending [s]) <-> In s [s] /\ pending s = true.
Proof.
  intros E s.
  refine (proj1 (@selected_iff_no_uploadedAt E [s] _) s).
  repeat constructor. simpl. tauto.
Defined.

(** C1, refuted as stated.  The record [1] has no render result and the
    HTTP call for it fails: the cycle writes an error and a render
    timestamp, and the query of the next cycle selects the record again.
    The record [2] has a render result (without [uploadedAt]) and is
    selected all the same. *)
Lemma attempted_record_selected_again :
  let E := Samples.env (fun _ _ => Throw Samples.connection_refused) in
  let s1 := Samples.imported 1 "http://example.com/a.zip" in
  let s2 := set_result (JObj [(str "events", JArr [])]) 1559999999999
              (Samples.imported 2 "http://example.com/b.zip") in
  let s1' := set_error (stack Samples.connection_refused)
               1560000000001 s1 in
  In s1' (work E [s1; s2])
  /\ attempted s1'
  /\ In s1' (find_pending (work E [s1; s2]))
  /\ renderResult s2 <> None
  /\ In s2 (find_pending [s1; s2]).
Proof.
  intros E s1 s2 s1'.
  split; [left; reflexivity|].
  split; [split; [discriminate | right; discriminate]|].
  split; [left; reflexivity|].
  split; [discriminate|].
  right; left; reflexivity.
Qed.

End DispatcherClaims.

Section ImportFacts.
Import JS Dispatcher.

Variable new_ObjectId : collection -> N.

Lemma upsert_present (o : operation) (c : collection) :
  present (op_url o) c = true -> upsert new_ObjectId o c = c.
Proof.
  unfold upsert. now intros ->.
Qed.

Lemma upsert_keeps (u : jsstring) (o : operation) (c : collection) :
  present u c = true -> present u (upsert new_ObjectId o c) = true.
Proof.
  unfold upsert. intros Hu.
  destruct (present (op_url o) c); [assumption|].
  unfold present. rewrite existsb_app. unfold present in Hu. now rewrite Hu.
Qed.

Lemma upsert_adds (o : operation) (c : collection) :
  present (op_url o) (upsert new_ObjectId o c) = true.
Proof.
  unfold upsert.
  destruct (present (op_url o) c) eqn:Hc; [exact Hc|].
  unfold present. rewrite existsb_app. simpl.
  rewrite jsstring_eqb_refl. apply orb_true_iff. right. reflexivity.
Qed.

Lemma bulkWrite_keeps (u : jsstring) (ops : list operation) :
  forall c, present u c = true ->
            present u (bulkWrite new_ObjectId ops c) = true.
Proof.
  induction ops as [|o ops IH]; intros c Hu; simpl; [assumption|].
  apply IH. now apply upsert_keeps.
Qed.

Lemma bulkWrite_adds (ops : list operation) :
  forall c, Forall (fun o => present (op_url o)
                                (bulkWrite new_ObjectId ops c) = true) ops.
Proof.
  induction ops as [|o ops IH]; intros c; simpl; constructor.
  - apply bulkWrite_keeps, upsert_adds.
  - apply IH.
Qed.

Lemma bulkWrite_present (ops : list operation) :
  forall c, Forall (fun o => present (op_url o) c = true) ops ->
            bulkWrite new_ObjectId ops c = c.
Proof.
  induction ops as [|o ops IH]; intros c H; simpl; [reflexivity|].
  inversion H as [|? ? Ho Hops]; subst.
  rewrite upsert_present by assumption. now apply IH.
Qed.

Lemma operations_urls (e : jsstring) (clock : nat -> Z) (urls : list jsstring) :
  forall i, map op_url (operations_from e clock i urls) = urls.
Proof.
  induction urls as [|u urls IH]; intros i; simpl; [reflexivity|].
  now rewrite IH.
Qed.

Lemma Forall_by_url (P : jsstring -> Prop) (ops ops' : list operation) :
  map op_url ops = map op_url ops' ->
  Forall (fun o => P (op_url o)) ops -> Forall (fun o => P (op_url o)) ops'.
Proof.
  intros Hm H.
  apply Forall_map with (f := op_url) (P := P).
  rewrite <- Hm. now apply Forall_map.
Qed.

End ImportFacts.

Section ImportClaim.
Import JS Dispatcher.

(** C9.  An upsert for a URL that the collection already holds leaves
    the collection as it is, and an [import] of a URL list into the
    collection that an [import] of the same list (same file, hence same
    event identifier, same apply flag) produced changes nothing,
    whatever the clock and the identifier generator of the second run. *)
Theorem import_twice_is_import_once :
  forall (new_ObjectId new_ObjectId' : collection -> N)
         (clock clock' : nat -> Z) (eventId : jsstring)
         (urls : list jsstring) (f : bool) (c c1 : collection),
    import new_ObjectId clock eventId urls f c = Some c1 ->
    import new_ObjectId' clock' eventId urls f c1 = Some c1
    /\ (forall o, present (op_url o) c = true ->
                  upsert new_ObjectId o c = c).
Proof.
  intros g g' clock clock' e urls f c c1 H.
  split; [|intros o; apply upsert_present].
  unfold import in *. destruct (valid_eventId e); [|discriminate].
  destruct f; [|reflexivity].
  injection H as <-. f_equal.
  apply bulkWrite_present.
  apply (@Forall_by_url
           (fun u => present u (bulkWrite g (operations_from e clock 0 urls) c)
                     = true)
           (operations_from e clock 0 urls)).
  - now rewrite !operations_urls.
  - apply bulkWrite_adds.
Qed.

Lemma import_twice_is_import_once_witness :
  let g := fun c : collection => N.of_nat (length c) in
  let urls := [str "http://example.com/a.zip"; str "http://example.com/b.zip";
               str "http://example.com/a.zip"] in
  let c1 := [Samples.imported 0 "http://example.com/a.zip";
             Samples.imported 1 "http://example.com/b.zip"] in
  import g (fun _ => 1560000000000%Z) (str "event1") urls true c1 = Some c1.
Proof.
  intros g urls c1.
  refine (proj1 (@import_twice_is_import_once g g (fun _ => 1550000000000%Z)
                   (fun _ => 1560000000000%Z) (str "event1") urls true [] _ _)).
  vm_compute. reflexivity.
Defined.

End ImportClaim.

(* ================================================================== *)
(** * Properties of the worker *)
(* ================================================================== *)

Section Quiet.
Import JS Worker.

Variable W : World.

Lemma logged_refl (st : state) : logged st st [].
Proof.
  unfold logged. repeat split. exists []. now rewrite app_nil_r.
Qed.

Lemma logged_trans (a b c : state) (t1 t2 : list string) :
  logged a b t1 -> logged b c t2 -> logged a c (t1 ++ t2).
Proof.
  unfold logged.
  intros (Ho & Hf & He & Hd & n1 & Hn1 & Hm1)
         (Ho' & Hf' & He' & Hd' & n2 & Hn2 & Hm2).
  repeat split; try congruence.
  exists (n1 ++ n2). split.
  - rewrite Hn2, Hn1. now rewrite app_assoc.
  - now rewrite !map_app, Hm1, Hm2.
Qed.

Lemma logged_eventLog (st : state) (t : string) :
  logged st (eventLog W t st) [t].
Proof.
  unfold logged, eventLog. simpl. repeat split.
  eexists. split; reflexivity.
Qed.

Lemma logged_same_diagnostics (st st' : state) :
  diagnostics st' = diagnostics st -> logged st st' [].
Proof.
  intros H. unfold logged. rewrite H. repeat split.
  exists []. now rewrite app_nil_r.
Qed.

Lemma bind_ok {A B} (m : M A) (k : A -> M B) (st st' : state) (a : A) :
  m st = (Ok a, st') -> bind m k st = k a st'.
Proof. unfold bind. now intros ->. Qed.

Lemma bind_throw {A B} (m : M A) (k : A -> M B) (st st' : state)
    (e : js_error) :
  m st = (Throw e, st') -> bind m k st = (Throw e, st').
Proof. unfold bind. now intros ->. Qed.

Lemma quiet_ret {A} (a : A) : quiet (ret a).
Proof. intros st. apply logged_refl. Qed.

Lemma quiet_throw {A} (e : js_error) : quiet (@throw A e).
Proof. intros st. apply logged_refl. Qed.

Lemma quiet_bind {A B} (m : M A) (k : A -> M B) :
  quiet m -> (forall a, quiet (k a)) -> quiet (bind m k).
Proof.
  intros Hm Hk st. unfold bind.
  specialize (Hm st). destruct (m st) as [[a|e] st1]; simpl in *.
  - change [] with (@nil string ++ []).
    eapply logged_trans; [exact Hm | apply Hk].
  - exact Hm.
Qed.

Lemma quiet_perform {A} (a : action) (answer : list action -> result A) :
  quiet (perform a answer).
Proof. intros st. now apply logged_same_diagnostics. Qed.

Lemma quiet_for_of {A} (xs : list A) (body : A -> M unit) :
  (forall x, quiet (body x)) -> quiet (for_of xs body).
Proof.
  intros Hb. induction xs as [|x xs IH]; simpl.
  - apply quiet_ret.
  - apply quiet_bind; [apply Hb | intros _; exact IH].
Qed.

Lemma quiet_execLog (command : jsstring) (args : list jsstring)
    (timeout : option Z) (cwd : option jsstring) :
  quiet (execLog W command args timeout cwd).
Proof.
  apply quiet_bind; [apply quiet_perform | intros; apply quiet_ret].
Qed.

Lemma quiet_set_workingDirectory (dir : jsstring) :
  quiet (set_workingDirectory dir).
Proof.
  intros st. unfold logged. simpl. repeat split.
  exists []. now rewrite app_nil_r.
Qed.

Lemma quiet_prune (dir : jsstring) (files : list jsstring) :
  quiet (prune W dir files).
Proof.
  apply quiet_for_of. intros x.
  destruct (negb (related x)); [apply quiet_perform | apply quiet_ret].
Qed.

(** The handler of a sound file touches the trace only. *)
Lemma convert_sound_diagnostics (src dest : jsstring) (total n : nat)
    (sound : jsstring) (st : state) :
  diagnostics (snd (convert_sound W src dest total n sound st))
  = diagnostics st.
Proof.
  unfold convert_sound, stat_size, run_execa, unlink, perform.
  destruct (statSync_size W (trace st) (path_join src sound)) as [size|e].
  - destruct (N.eqb size 0); [reflexivity|].
    match goal with
    | |- context [execa W ?h ?c ?a ?t ?d] => destruct (execa W h c a t d)
    end; reflexivity.
  - reflexivity.
Qed.

Lemma quiet_convert_sound (src dest : jsstring) (total n : nat)
    (sound : jsstring) :
  quiet (convert_sound W src dest total n sound).
Proof.
  intros st. apply logged_same_diagnostics, convert_sound_diagnostics.
Qed.

Lemma quiet_convert_sounds (src dest : jsstring) (total : nat)
    (sounds : list jsstring) :
  forall n, quiet (convert_sounds W src dest total n sounds).
Proof.
  induction sounds as [|s sounds IH]; intros n; simpl.
  - apply quiet_ret.
  - apply quiet_bind; [apply quiet_convert_sound | intros _; apply IH].
Qed.

Lemma quiet_prepareSounds (src dest : jsstring) :
  quiet (prepareSounds W src dest).
Proof.
  unfold prepareSounds.
  apply quiet_bind; [apply quiet_perform|]. intros _.
  apply quiet_bind; [apply quiet_perform|]. intros sounds.
  apply quiet_convert_sounds.
Qed.

Lemma quiet_render_try (url : jsstring) (out : option jsstring) :
  quiet_stages (render_try W url out).
Proof.
  unfold render_try. simpl.
  repeat match goal with
         | |- _ /\ _ => split
         | |- forall _, _ => intro
         | |- True => exact I
         | |- quiet (bind _ _) => apply quiet_bind
         | |- quiet (execLog _ _ _ _ _) => apply quiet_execLog
         | |- quiet (set_workingDirectory _) => apply quiet_set_workingDirectory
         | |- quiet (mkdirp _ _) => apply quiet_perform
         | |- quiet (glob _ _ _ _ _) => apply quiet_perform
         | |- quiet (unlink _ _) => apply quiet_perform
         | |- quiet (rename _ _ _) => apply quiet_perform
         | |- quiet (realpath _ _) => apply quiet_perform
         | |- quiet (readIndex _ _) => apply quiet_perform
         | |- quiet (prune _ _ _) => apply quiet_prune
         | |- quiet (prepareSounds _ _ _) => apply quiet_prepareSounds
         | |- quiet (for_of _ _) => apply quiet_for_of
         | |- quiet (ret _) => apply quiet_ret
         | |- quiet (throw _) => apply quiet_throw
         | |- quiet (match ?x with _ => _ end) => destruct x
         | |- quiet (if ?x then _ else _) => destruct x
         end.
Qed.

Lemma ends_with_deliver (url : jsstring) (out : option jsstring) :
  ends_with (render_try W url out)
            (deliver W (workDir W ++ str "/song.mp3") out).
Proof.
  unfold render_try. simpl. intros. reflexivity.
Qed.

Lemma has_tags_render_try (url : jsstring) (out : option jsstring) :
  has_tags (render_try W url out) stage_tags.
Proof.
  unfold render_try, stage_tags. simpl.
  repeat (split; [reflexivity|]; intro). exact I.
Qed.

End Quiet.

Section Pipeline.
Import JS Worker.

Variable W : World.

(** A pipeline either fails in one of its stages or completes them. *)
Lemma fails_or_completes (p : pipeline) :
  forall st,
    (exists done tag e, fails_at W p st done tag e)
    \/ (exists done st', completes W p st done st').
Proof.
  induction p as [m | A body t next IH]; intros st; simpl.
  - right. exists [], st. split; reflexivity.
  - destruct (body st) as [[a|e] st1].
    + destruct (IH a (eventLog W t st1))
        as [(done & tag & e & H) | (done & st' & H)].
      * left. exists (t :: done), tag, e. exists done. split; auto.
      * right. exists (t :: done), st'. exists done. split; auto.
    + left. exists [], t, e. repeat split.
Qed.

(** A failing stage ends the run: the run throws the error of the
    stage, and the events logged are those of the stages before it. *)
Lemma run_fails (p : pipeline) :
  quiet_stages p ->
  forall st done tag e,
    fails_at W p st done tag e ->
    exists st', run W p st = (Throw e, st') /\ logged st st' done.
Proof.
  induction p as [m | A body t next IH]; simpl; intros Hq st done tag e H.
  - contradiction.
  - destruct Hq as [Hbody Hnext]. specialize (Hbody st).
    destruct (body st) as [[a|e'] st1]; simpl in Hbody.
    + destruct H as (done' & -> & H).
      destruct (IH a (Hnext a) _ _ _ _ H) as (st' & Hrun & Hlog).
      exists st'. split; [assumption|].
      change (t :: done') with ([] ++ [t] ++ done').
      eapply logged_trans; [exact Hbody|].
      eapply logged_trans; [apply logged_eventLog | exact Hlog].
    + destruct H as (-> & -> & ->). exists st1. split; [reflexivity|].
      exact Hbody.
Qed.

(** When all stages complete the run is the end of the pipeline, in
    the state in which the last event was logged. *)
Lemma run_completes (p : pipeline) (m0 : M unit) :
  quiet_stages p -> ends_with p m0 ->
  forall st done st',
    completes W p st done st' ->
    run W p st = m0 st' /\ logged st st' done.
Proof.
  induction p as [m | A body t next IH]; simpl; intros Hq He st done st' H.
  - destruct H as [-> ->]. subst m. split; [reflexivity | apply logged_refl].
  - destruct Hq as [Hbody Hnext]. specialize (Hbody st).
    destruct (body st) as [[a|e'] st1]; simpl in Hbody; [|contradiction].
    destruct H as (done' & -> & H).
    destruct (IH a (Hnext a) (He a) _ _ _ H) as [Hrun Hlog].
    split; [assumption|].
    change (t :: done') with ([] ++ [t] ++ done').
    eapply logged_trans; [exact Hbody|].
    eapply logged_trans; [apply logged_eventLog | exact Hlog].
Qed.

(** The stages before a failing one, the failing one and the ones after
    it make up the stages of the pipeline. *)
Lemma fails_at_tags (p : pipeline) :
  forall tags st done tag e,
    has_tags p tags -> fails_at W p st done tag e ->
    exists later, tags = done ++ tag :: later.
Proof.
  induction p as [m | A body t next IH]; simpl;
    intros tags st done tag e Ht H; [contradiction|].
  destruct tags as [|t' tags]; [contradiction|].
  destruct Ht as [<- Ht].
  destruct (body st) as [[a|e'] st1].
  - destruct H as (done' & -> & H).
    destruct (IH a _ _ _ _ _ (Ht a) H) as [later ->].
    exists later. reflexivity.
  - destruct H as (-> & -> & ->). exists tags. reflexivity.
Qed.

Lemma completes_tags (p : pipeline) :
  forall tags st done st',
    has_tags p tags -> completes W p st done st' -> done = tags.
Proof.
  induction p as [m | A body t next IH]; simpl;
    intros tags st done st' Ht H.
  - destruct tags; [|contradiction]. now destruct H.
  - destruct tags as [|t' tags]; [contradiction|].
    destruct Ht as [<- Ht].
    destruct (body st) as [[a|e'] st1]; [|contradiction].
    destruct H as (done' & -> & H). f_equal. exact (IH a _ _ _ _ (Ht a) H).
Qed.

(** The end of the [try]. *)
Lemma deliver_cases (songMp3Path : jsstring) (out : option jsstring)
    (st : state) :
  let r := fst (deliver W songMp3Path out st) in
  let st' := snd (deliver W songMp3Path out st) in
  operationId (diagnostics st') = operationId (diagnostics st)
  /\ events (diagnostics st') = events (diagnostics st)
  /\ error (diagnostics st') = error (diagnostics st)
  /\ finishedAt (diagnostics st') = finishedAt (diagnostics st)
  /\ match r with
     | Ok _ =>
         outFile (diagnostics st')
         = Some match out with
                | Some destination =>
                    if truthy destination then destination else songMp3Path
                | None => songMp3Path
                end
     | Throw e =>
         outFile (diagnostics st') = Some songMp3Path
         /\ exists destination,
              out = Some destination
              /\ truthy destination = true
              /\ execa W (trace st) (str "mv") [songMp3Path; destination]
                       None None = Throw e
     end.
Proof.
  unfold deliver, bind, set_outFile, execLog, bind, run_execa, perform, ret.
  simpl. destruct out as [destination|]; simpl.
  - destruct (truthy destination) eqn:Ht; simpl.
    + destruct (execa W (trace st) (str "mv") [songMp3Path; destination]
                      None None) as [text|e] eqn:Hmv; simpl.
      * repeat split.
      * repeat split. exists destination. repeat split; assumption.
    + repeat split.
  - repeat split.
Qed.

End Pipeline.

Section Render.
Import JS Worker.

Variable W : World.

(** The two ways in which [render] ends: a stage failed, or all stages
    completed and the end of the [try] returned or threw. *)
Lemma render_cases (url : jsstring) (out : option jsstring) (st : state) :
  let st1 := eventLog W "render:start" st in
  let d0 := diagnostics st in
  let d := diagnostics (render W url out st) in
  let songMp3Path := workDir W ++ str "/song.mp3" in
  operationId d = operationId d0
  /\ (exists t, finishedAt d = Some t)
  /\ ((exists done tag e new,
         fails_at W (render_try W url out) st1 done tag e
         /\ events d = events d0 ++ new
         /\ map event new = map str ("render:start"%string :: done)
         /\ outFile d = outFile d0
         /\ error d = Some (stack e))
      \/ (exists stf new,
            completes W (render_try W url out) st1 stage_tags stf
            /\ events d = events d0 ++ new
            /\ map event new = map str ("render:start"%string :: stage_tags)
            /\ match fst (deliver W songMp3Path out stf) with
               | Ok _ =>
                   error d = error d0
                   /\ outFile d
                      = Some match out with
                             | Some destination =>
                                 if truthy destination then destination
                                 else songMp3Path
                             | None => songMp3Path
                             end
               | Throw e =>
                   error d = Some (stack e)
                   /\ outFile d = Some songMp3Path
                   /\ exists destination,
                        out = Some destination
                        /\ truthy destination = true
                        /\ execa W (trace stf) (str "mv")
                                 [songMp3Path; destination] None None
                           = Throw e
               end)).
Proof.
  intros st1 d0 d songMp3Path.
  pose proof (logged_eventLog W st "render:start") as Hstart.
  fold st1 in Hstart.
  destruct (fails_or_completes W (render_try W url out) st1)
    as [(done & tag & e & Hf) | (done & stf & Hc)].
  - destruct (run_fails W _ (quiet_render_try W url out) _ _ _ _ Hf)
      as (st' & Hrun & Hlog).
    pose proof (logged_trans Hstart Hlog) as Hall.
    destruct Hall as (Ho & Hout & Herr & Hfin & new & Hnew & Hmap).
    subst d d0. unfold render. fold st1. rewrite Hrun.
    unfold set_finishedAt, set_error.
    cbn [diagnostics operationId events outFile error finishedAt].
    split; [exact Ho|]. split; [eexists; reflexivity|].
    left. exists done, tag, e, new. auto.
  - pose proof (completes_tags W _ _ _ _ _
                  (has_tags_render_try W url out) Hc) as ->.
    destruct (@run_completes W _ _ (quiet_render_try W url out)
                (ends_with_deliver W url out) _ _ _ Hc) as [Hrun Hlog].
    pose proof (logged_trans Hstart Hlog) as Hall.
    destruct Hall as (Ho & Hout & Herr & Hfin & new & Hnew & Hmap).
    pose proof (deliver_cases W songMp3Path out stf) as Hd.
    cbv zeta in Hd. destruct Hd as (Do & Dev & Derr & Dfin & Dres).
    subst d d0. unfold render. fold st1. rewrite Hrun. fold songMp3Path.
    destruct (deliver W songMp3Path out stf) as [r st'] eqn:Hdel.
    cbn [fst snd] in Do, Dev, Derr, Dfin, Dres.
    destruct r as [[]|e]; unfold set_finishedAt, set_error;
      cbn [diagnostics operationId events outFile error finishedAt].
    + split; [congruence|]. split; [eexists; reflexivity|].
      right. exists stf, new. rewrite Hdel. cbn [fst].
      split; [exact Hc|]. split; [congruence|]. split; [exact Hmap|].
      split; congruence.
    + split; [congruence|]. split; [eexists; reflexivity|].
      right. exists stf, new. rewrite Hdel. cbn [fst].
      destruct Dres as [Dout Dmv].
      split; [exact Hc|]. split; [congruence|]. split; [exact Hmap|].
      split; [reflexivity|]. split; [exact Dout | exact Dmv].
Qed.

End Render.

Section Tags.
Import JS Worker.

Lemma N_of_ascii_inj (a b : ascii) : N_of_ascii a = N_of_ascii b -> a = b.
Proof.
  intros H. rewrite <- (ascii_N_embedding a), <- (ascii_N_embedding b).
  now rewrite H.
Qed.

Lemma str_inj (a b : string) : str a = str b -> a = b.
Proof.
  revert b. induction a as [|x a IH]; intros [|y b]; simpl;
    try discriminate; [reflexivity|].
  unfold str. simpl. intros H. injection H as Hx Hab.
  apply N_of_ascii_inj in Hx. apply IH in Hab. congruence.
Qed.

Lemma in_map_str (t : string) (l : list string) :
  In (str t) (map str l) -> In t l.
Proof.
  intros H. apply in_map_iff in H as (x & Hx & Hin).
  apply str_inj in Hx. now subst.
Qed.

Lemma all_tags_distinct : NoDup ("render:start"%string :: stage_tags).
Proof.
  unfold stage_tags.
  repeat (constructor; [simpl; intuition discriminate|]).
  constructor.
Qed.

(** In a list without repetition an element splits the list in one
    way only. *)
Lemma split_unique {A} (l a a' b b' : list A) (x : A) :
  NoDup l -> l = a ++ x :: b -> l = a' ++ x :: b' -> a = a' /\ b = b'.
Proof.
  intros Hnd -> H. revert a' H Hnd.
  induction a as [|y a IH]; intros [|y' a'] H Hnd; simpl in *.
  - injection H as <-. auto.
  - injection H as <- ->. inversion Hnd as [|? ? Hx _]. exfalso. apply Hx.
    apply in_or_app. right. left. reflexivity.
  - injection H as -> <-. inversion Hnd as [|? ? Hx _]. exfalso. apply Hx.
    apply in_or_app. right. left. reflexivity.
  - injection H as <- H. inversion Hnd as [|? ? _ Hnd'].
    destruct (IH a' H Hnd') as [-> ->]. auto.
Qed.

(** The events of a failed stage and of the stages after it are not
    among the events of the stages before it. *)
Lemma later_tags_not_logged (done later : list string) (tag t : string) :
  stage_tags = done ++ tag :: later ->
  In t (tag :: later) ->
  ~ In (str t) (map str ("render:start"%string :: done)).
Proof.
  intros Hsplit Ht Hin. apply in_map_str in Hin.
  pose proof all_tags_distinct as Hnd. rewrite Hsplit in Hnd.
  change ("render:start"%string :: done ++ tag :: later)
    with (("render:start"%string :: done) ++ tag :: later) in Hnd.
  apply NoDup_app_remove_l in Hnd as Hnd'.
  revert Hnd. generalize ("render:start"%string :: done) as pre, Hin.
  intros pre Hpre Hnd.
  induction pre as [|p pre IH]; [contradiction|].
  simpl in Hnd. inversion Hnd as [|? ? Hp Hrest]; subst.
  destruct Hpre as [->|Hpre]; [|now apply IH].
  apply Hp. apply in_or_app. right. exact Ht.
Qed.

End Tags.

Section WorkerClaims.
Import JS Worker.

(** C2, as the code has it.  Started on a diagnostics object without
    output path and error, [render] always sets the finish time, and
    then either the output path alone is set, or the error alone, or,
    when all stages completed and the move of the encoded file to the
    destination asked for failed, both: the output path is the file in
    the working directory and the error is that of the move.  Without a
    destination exactly one of the two is set. *)
Theorem render_finishes_with_outFile_or_error :
  forall (W : World) (url : jsstring) (out : option jsstring) (st : state),
    outFile (diagnostics st) = None ->
    error (diagnostics st) = None ->
    let d := diagnostics (render W url out st) in
    let songMp3Path := workDir W ++ str "/song.mp3" in
    (exists t, finishedAt d = Some t)
    /\ ((outFile d <> None /\ error d = None)
        \/ (outFile d = None /\ error d <> None)
        \/ (outFile d = Some songMp3Path
            /\ exists destination h e,
                 out = Some destination
                 /\ truthy destination = true
                 /\ execa W h (str "mv") [songMp3Path; destination]
                          None None = Throw e
                 /\ error d = Some (stack e)))
    /\ ((forall destination,
           out = Some destination -> truthy destination = false) ->
        (outFile d = None <-> error d <> None)).
Proof.
  intros W url out st Hout Herr d songMp3Path.
  destruct (render_cases W url out st) as (_ & Hfin & Hcases).
  fold d in Hfin, Hcases. fold songMp3Path in Hcases.
  split; [exact Hfin|].
  destruct Hcases
    as [(done & tag & e & new & _ & _ & _ & Ho & He)
       | (stf & new & _ & _ & _ & Hend)].
  - rewrite Hout in Ho. split.
    + right. left. split; [assumption | congruence].
    + intros _. split; congruence.
  - destruct (fst (deliver W songMp3Path out stf)) as [[]|e].
    + destruct Hend as [He Ho]. rewrite Herr in He. split.
      * left. split; congruence.
      * intros _. split; congruence.
    + destruct Hend as (He & Ho & destination & Hd & Ht & Hmv). split.
      * right. right. split; [assumption|].
        exists destination, (trace stf), e. auto.
      * intros Hno. specialize (Hno destination Hd). congruence.
Qed.

Lemma render_finishes_with_outFile_or_error_witness :
  let d := diagnostics (render Samples.calm (str "http://example.com/a.zip")
                               None Samples.start) in
  outFile d = None <-> error d <> None.
Proof.
  intros d.
  refine (proj2 (proj2 (@render_finishes_with_outFile_or_error
                          Samples.calm (str "http://example.com/a.zip")
                          None Samples.start _ _)) _).
  - reflexivity.
  - reflexivity.
  - intros destination H. discriminate.
Defined.

(** C2, refuted as stated.  Every stage succeeds and the move to the
    destination [/out/a.mp3] fails: after [render] the output path and
    the error description are both set. *)
Lemma failed_move_sets_outFile_and_error :
  let W := Samples.failing "mv" Samples.moved_nowhere in
  let d := diagnostics (render W (str "http://example.com/a.zip")
                               (Some (str "/out/a.mp3")) Samples.start) in
  outFile (diagnostics Samples.start) = None
  /\ error (diagnostics Samples.start) = None
  /\ outFile d = Some (Samples.work_dir ++ str "/song.mp3")
  /\ error d = Some (stack Samples.moved_nowhere)
  /\ finishedAt d = Some 1560000000012%Z.
Proof.
  vm_compute. repeat split.
Qed.

(** C6.  When a stage of the pipeline fails, the events that [render]
    adds to the diagnostics are [render:start] and those of the stages
    before the failed one, so neither the event of the failed stage nor
    that of a later stage is among them, and the error of the
    diagnostics is the stack text of the failure.  When the failed
    stage is the one that runs the renderer, the events added end with
    [render:chartSelected] and [render:normalized] is not among them. *)
Theorem failed_stage_ends_the_pipeline :
  forall (W : World) (url : jsstring) (out : option jsstring) (st : state)
         (done : list string) (tag : string) (e : js_error),
    fails_at W (render_try W url out) (eventLog W "render:start" st)
             done tag e ->
    let d := diagnostics (render W url out st) in
    exists new later,
      events d = events (diagnostics st) ++ new
      /\ map event new = map str ("render:start"%string :: done)
      /\ stage_tags = done ++ tag :: later
      /\ (forall t, In t (tag :: later) -> ~ In (str t) (map event new))
      /\ error d = Some (stack e)
      /\ (tag = "render:rendered"%string ->
          map event new
          = map str ["render:start"; "render:downloaded"; "render:extracted";
                     "render:unrelatedFilesRemoved"; "render:converted";
                     "render:chartsMoved"; "render:indexed";
                     "render:chartSelected"]%string
          /\ ~ In (str "render:normalized") (map event new)).
Proof.
  intros W url out st done tag e Hf d.
  destruct (run_fails W _ (quiet_render_try W url out) _ _ _ _ Hf)
    as (st' & Hrun & Hlog).
  pose proof (logged_trans (logged_eventLog W st "render:start") Hlog)
    as (_ & _ & _ & _ & new & Hnew & Hmap).
  destruct (fails_at_tags W _ _ _ _ _ _ (has_tags_render_try W url out) Hf)
    as [later Hsplit].
  exists new, later.
  assert (Hev : events d = events (diagnostics st) ++ new).
  { subst d. unfold render. rewrite Hrun. exact Hnew. }
  assert (Herr : error d = Some (stack e)).
  { subst d. unfold render. rewrite Hrun. reflexivity. }
  assert (Hlater : forall t, In t (tag :: later) ->
                             ~ In (str t) (map event new)).
  { intros t Ht. rewrite Hmap.
    exact (later_tags_not_logged Hsplit Ht). }
  split; [exact Hev|]. split; [exact Hmap|]. split; [exact Hsplit|].
  split; [exact Hlater|]. split; [exact Herr|].
  intros ->.
  assert (Hnd : NoDup stage_tags).
  { pose proof all_tags_distinct as H. now inversion H. }
  destruct (@split_unique _ stage_tags done
              ["render:downloaded"; "render:extracted";
               "render:unrelatedFilesRemoved"; "render:converted";
               "render:chartsMoved"; "render:indexed";
               "render:chartSelected"]%string
              later
              ["render:normalized"; "render:trimmed";
               "render:encoded"]%string
              "render:rendered"%string Hnd Hsplit eq_refl) as [-> ->].
  split; [exact Hmap|].
  apply Hlater. right. left. reflexivity.
Qed.

Lemma failed_stage_ends_the_pipeline_witness :
  let W := Samples.failing "bms-renderer" Samples.timed_out in
  let d := diagnostics (render W (str "http://example.com/a.zip") None
                               Samples.start) in
  error d = Some (stack Samples.timed_out)
  /\ ~ In (str "render:normalized") (map event (events d)).
Proof.
  intros W d.
  destruct (@failed_stage_ends_the_pipeline W (str "http://example.com/a.zip")
              None Samples.start
              ["render:downloaded"; "render:extracted";
               "render:unrelatedFilesRemoved"; "render:converted";
               "render:chartsMoved"; "render:indexed";
               "render:chartSelected"]%string
              "render:rendered"%string Samples.timed_out)
    as (new & later & Hev & _ & _ & _ & Herr & Hrendered).
  - vm_compute.
    do 7 (eexists; split; [reflexivity|]). repeat split.
  - split; [exact Herr|].
    fold d in Hev. rewrite Hev. simpl.
    exact (proj2 (Hrendered eq_refl)).
Defined.

End WorkerClaims.

Section ServiceClaim.
Import JS Worker.

Lemma truthy_songMp3Path (W : World) :
  truthy (workDir W ++ str "/song.mp3") = true.
Proof. reflexivity. Qed.

(** C8, as the code has it.  The handler answers with status 400
    exactly when the submitted URL does not begin with [http].  For an
    accepted request whose render failed, the answer is the diagnostics
    object, which carries the error.  For an accepted request whose
    render succeeded, the encoded file is uploaded: when the upload
    succeeds the answer is the diagnostics object with the [uploaded]
    event added, and when the upload fails the failure is passed to
    [next] and no diagnostics is answered. *)
Theorem put_render_answers :
  forall (W : World) (operationId : jsstring) (url : option jsstring)
         (st : state),
    let answer := fst (put_render W operationId url st) in
    let accepted := starts_with (str "http") (ToString url) in
    let st1 :=
      render W (ToString url) None
             (mkState (new_diagnostics (Some operationId))
                      (trace st) (clock st)) in
    let d := diagnostics st1 in
    let bucketName := BMSURGE_RENDER_OUTPUT_BUCKET W in
    let destination := operationId ++ str ".mp3" in
    ((exists body, answer = Status 400 body) <-> accepted = false)
    /\ (accepted = true -> error d <> None ->
        outFile d = None /\ answer = Json d)
    /\ (accepted = true -> error d = None ->
        exists path,
          outFile d = Some path
          /\ match upload W (trace st1) bucketName path destination with
             | Ok _ =>
                 answer
                 = Json (diagnostics
                           (eventLog W "uploaded"
                              (record (Upload bucketName path destination)
                                      st1)))
             | Throw e => answer = Next e
             end).
Proof.
  intros W operationId url st answer accepted st1 d bucketName destination.
  assert (Hfresh : outFile (diagnostics
                     (mkState (new_diagnostics (Some operationId))
                              (trace st) (clock st))) = None
                   /\ error (diagnostics
                     (mkState (new_diagnostics (Some operationId))
                              (trace st) (clock st))) = None)
    by (split; reflexivity).
  destruct Hfresh as [Hout0 Herr0].
  pose proof (render_cases W (ToString url) None
                (mkState (new_diagnostics (Some operationId))
                         (trace st) (clock st))) as Hr.
  cbv zeta in Hr. fold st1 in Hr. fold d in Hr.
  destruct Hr as (_ & _ & Hcases).
  subst answer. unfold put_render. fold accepted. fold st1. fold d.
  fold bucketName. fold destination.
  destruct accepted eqn:Hacc; cbn [negb].
  - split.
    { split; [|discriminate].
      intros [body Hbody].
      destruct (outFile d) as [path|]; [destruct (truthy path)|];
        unfold perform in Hbody;
        try destruct (upload W (trace st1) bucketName path destination);
        discriminate. }
    destruct Hcases
      as [(done & tag & e & new & _ & _ & _ & Ho & He)
         | (stf & new & _ & _ & _ & Hend)].
    + rewrite Hout0 in Ho. split.
      * intros _ _. split; [exact Ho|]. rewrite Ho. reflexivity.
      * intros _ Hnone. congruence.
    + pose proof (deliver_cases W (workDir W ++ str "/song.mp3") None stf)
        as Hd.
      cbv zeta in Hd. destruct Hd as (_ & _ & _ & _ & Hd).
      destruct (fst (deliver W (workDir W ++ str "/song.mp3") None stf))
        as [[]|e].
      * destruct Hend as [He Ho]. rewrite Herr0 in He. split.
        -- intros _ Hsome. congruence.
        -- intros _ _. exists (workDir W ++ str "/song.mp3").
           split; [exact Ho|]. rewrite Ho.
           rewrite truthy_songMp3Path. unfold perform.
           destruct (upload W (trace st1) bucketName
                            (workDir W ++ str "/song.mp3") destination);
             reflexivity.
      * destruct Hd as (_ & dest & Hdest & _). discriminate.
  - split.
    { split; [reflexivity|]. intros _. eexists. reflexivity. }
    split; intros; discriminate.
Qed.

Lemma put_render_answers_witness :
  let W := Samples.failing "wget" Samples.timed_out in
  let url := Some (str "http://example.com/a.zip") in
  exists d,
    fst (put_render W (str "op1") url Samples.start) = Json d
    /\ error d = Some (stack Samples.timed_out).
Proof.
  intros W url.
  destruct (@put_render_answers W (str "op1") url Samples.start)
    as (_ & Hfailed & _).
  eexists. split.
  - refine (proj2 (Hfailed _ _)).
    + reflexivity.
    + vm_compute. discriminate.
  - vm_compute. reflexivity.
Defined.

(** C8, refuted as stated.  The URL begins with [http], the render
    succeeds and the upload fails: the request is accepted and the
    answer is not the diagnostics object but the failure, passed to
    [next]. *)
Lemma failed_upload_answers_no_diagnostics :
  let url := Some (str "http://example.com/a.zip") in
  starts_with (str "http") (ToString url) = true
  /\ fst (put_render Samples.no_bucket (str "op1") url Samples.start)
     = Next Samples.upload_refused.
Proof.
  vm_compute. split; reflexivity.
Qed.

End ServiceClaim.

Section Charts.
Import JS Worker.

Local Open Scope Z_scope.

Lemma insert_chart_perm (c : chart) (l : list chart) :
  Permutation (c :: l) (insert_chart c l).
Proof.
  induction l as [|x l IH]; simpl; [reflexivity|].
  destruct (noteCount c <=? noteCount x); [reflexivity|].
  rewrite perm_swap. now constructor.
Qed.

Lemma sort_charts_perm (l : list chart) : Permutation l (sort_charts l).
Proof.
  induction l as [|c l IH]; simpl; [constructor|].
  rewrite <- insert_chart_perm. now constructor.
Qed.

Lemma insert_chart_sorted (c : chart) (l : list chart) :
  Sorted (fun a b => noteCount a <= noteCount b) l ->
  Sorted (fun a b => noteCount a <= noteCount b) (insert_chart c l).
Proof.
  induction l as [|x l IH]; simpl; intros Hs.
  - repeat constructor.
  - destruct (noteCount c <=? noteCount x) eqn:Hcx.
    + constructor; [assumption|]. constructor. now apply Z.leb_le.
    + apply Z.leb_gt in Hcx. inversion Hs as [|? ? Hl Hx]; subst.
      constructor; [now apply IH|].
      destruct l as [|y l]; simpl.
      * constructor. lia.
      * destruct (noteCount c <=? noteCount y); constructor;
          [lia | now inversion Hx].
Qed.

Lemma sort_charts_sorted (l : list chart) :
  StronglySorted (fun a b => noteCount a <= noteCount b) (sort_charts l).
Proof.
  apply Sorted_StronglySorted.
  - intros a b c. lia.
  - induction l as [|c l IH]; simpl; [constructor|].
    now apply insert_chart_sorted.
Qed.

(** The sort keeps the charts of one note count in their order. *)
Lemma insert_chart_stable (k : Z) (c : chart) (l : list chart) :
  filter (fun x => noteCount x =? k) (insert_chart c l)
  = filter (fun x => noteCount x =? k) (c :: l).
Proof.
  induction l as [|x l IH]; [reflexivity|].
  simpl insert_chart.
  destruct (noteCount c <=? noteCount x) eqn:Hcx; [reflexivity|].
  apply Z.leb_gt in Hcx.
  cbn [filter]. rewrite IH. cbn [filter].
  destruct (noteCount x =? k) eqn:Hx, (noteCount c =? k) eqn:Hc;
    try reflexivity.
  apply Z.eqb_eq in Hx, Hc. lia.
Qed.

Lemma sort_charts_stable (k : Z) (l : list chart) :
  filter (fun x => noteCount x =? k) (sort_charts l)
  = filter (fun x => noteCount x =? k) l.
Proof.
  induction l as [|c l IH]; [reflexivity|].
  simpl sort_charts. rewrite insert_chart_stable. simpl. now rewrite IH.
Qed.

(** C3.  For a non-empty list of charts, the charts sorted are the
    same charts in ascending order of note count, and the chart
    selected is the one at index [floor((N-1)/2)] of the sorted list,
    [N] being the number of charts.  For the note counts 5, 2, 9, 2 the
    sorted counts are 2, 2, 5, 9 and the chart selected is the one at
    index 1 of the sorted list. *)
Theorem median_chart_is_selected :
  forall cs : list chart,
    cs <> [] ->
    let sorted := sort_charts cs in
    Permutation cs sorted
    /\ StronglySorted (fun a b => noteCount a <= noteCount b) sorted
    /\ (exists c,
          select_chart cs = Some c
          /\ nth_error sorted ((length cs - 1) / 2)%nat = Some c)
    /\ map noteCount Samples.four_charts = [5; 2; 9; 2]
    /\ map noteCount (sort_charts Samples.four_charts) = [2; 2; 5; 9]
    /\ select_chart Samples.four_charts
       = nth_error (sort_charts Samples.four_charts) 1.
Proof.
  intros cs Hne sorted.
  split; [apply sort_charts_perm|].
  split; [apply sort_charts_sorted|].
  split; [|repeat split].
  assert (Hlen : length sorted = length cs).
  { symmetry. apply Permutation_length, sort_charts_perm. }
  unfold select_chart, median_index. fold sorted. rewrite Hlen.
  destruct (nth_error sorted ((length cs - 1) / 2)%nat) as [c|] eqn:Hn.
  - exists c. auto.
  - exfalso. apply nth_error_None in Hn. rewrite Hlen in Hn.
    assert (Hpos : (0 < length cs)%nat)
      by (destruct cs; [congruence | simpl; lia]).
    assert (Hlt : ((length cs - 1) / 2 < length cs)%nat)
      by (apply Nat.Div0.div_lt_upper_bound; lia).
    lia.
Qed.

Lemma median_chart_is_selected_witness :
  exists c,
    select_chart Samples.four_charts = Some c
    /\ nth_error (sort_charts Samples.four_charts) 1 = Some c.
Proof.
  refine (proj1 (proj2 (proj2 (@median_chart_is_selected
                                 Samples.four_charts _)))).
  discriminate.
Defined.

End Charts.

Section Prune.
Import JS Worker.

Variable W : World.

(** The prune loop unlinks files that fail the test, in the order of
    the list, and all of them when it returns. *)
Lemma prune_trace (dir : jsstring) (files : list jsstring) :
  forall st,
    let unrelated := filter (fun f => negb (related f)) files in
    exists k,
      trace (snd (prune W dir files st))
      = trace st
        ++ map (fun f => Unlink (dir ++ slash :: f)) (firstn k unrelated)
      /\ (fst (prune W dir files st) = Ok tt ->
          firstn k unrelated = unrelated).
Proof.
  induction files as [|f files IH]; intros st; cbn zeta.
  - exists 0%nat. simpl. now rewrite app_nil_r.
  - unfold prune in *. cbn [for_of filter].
    destruct (related f) eqn:Hf; cbn [negb].
    + unfold bind, ret. exact (IH st).
    + assert (Hstep : unlink W (dir ++ slash :: f) st
                      = (unlinkSync W (trace st) (dir ++ slash :: f),
                         record (Unlink (dir ++ slash :: f)) st))
        by reflexivity.
      destruct (unlinkSync W (trace st) (dir ++ slash :: f)) as [[]|e].
      * rewrite (@bind_ok _ _ _ _ _ _ _ Hstep).
        destruct (IH (record (Unlink (dir ++ slash :: f)) st))
          as (k & Htrace & Hok).
        exists (S k). cbn [firstn map]. split.
        -- rewrite Htrace. cbn [record trace].
           now rewrite <- app_assoc.
        -- intros H. f_equal. now apply Hok.
      * rewrite (@bind_throw _ _ _ _ _ _ _ Hstep).
        exists 1%nat. cbn [fst snd record trace firstn map].
        split; [reflexivity | discriminate].
Qed.

Lemma fold_case_dot (c : N) : fold_case c = dot -> c = dot.
Proof.
  unfold fold_case, dot.
  destruct (N.leb 65 c && N.leb c 90)%bool eqn:H; [|auto].
  apply andb_true_iff in H as [H1 H2]. apply N.leb_le in H1. lia.
Qed.

Lemma matches_at_folded (s rest : jsstring) :
  matches_at (map fold_case s) (s ++ rest) = true.
Proof.
  induction s as [|c s IH]; simpl; [reflexivity|].
  now rewrite N.eqb_refl, IH.
Qed.

Lemma related_app (pre s : jsstring) :
  related s = true -> related (pre ++ s) = true.
Proof.
  intros H. induction pre as [|c pre IH]; [assumption|].
  simpl. rewrite IH. apply orb_true_r.
Qed.

Lemma related_here (s : jsstring) :
  matches_here s = true -> related s = true.
Proof.
  destruct s as [|c s]; [discriminate|]. intros H.
  change (related (c :: s)) with (matches_here (c :: s) || related s)%bool.
  now rewrite H.
Qed.

Lemma strip_suffix_some (suffix s stem : jsstring) :
  strip_suffix suffix s = Some stem -> s = stem ++ suffix.
Proof.
  unfold strip_suffix.
  destruct (Nat.leb (length suffix) (length s)
            && jsstring_eqb (skipn (length s - length suffix) s) suffix)%bool
    eqn:H; [|discriminate].
  intros [= <-]. apply andb_true_iff in H as [_ H].
  apply jsstring_eqb_eq in H. rewrite <- H at 2.
  symmetry. apply firstn_skipn.
Qed.

(** A file whose name ends with one of the extensions passes the test:
    the prune loop keeps it. *)
Lemma allowed_extension_is_related (name : jsstring) :
  has_allowed_extension name = true -> related name = true.
Proof.
  unfold has_allowed_extension. intros H.
  apply existsb_exists in H as (e & He & H).
  destruct (strip_suffix (dot :: e) (map fold_case name)) as [stem|] eqn:Hs;
    [|discriminate].
  apply strip_suffix_some in Hs.
  apply map_eq_app in Hs as (n1 & n2 & -> & _ & Hn2).
  destruct n2 as [|c n2]; [discriminate|].
  simpl in Hn2. injection Hn2 as Hc Hn2. apply fold_case_dot in Hc.
  apply related_app, related_here.
  unfold matches_here. subst c. rewrite N.eqb_refl. cbn [andb].
  apply existsb_exists. exists e. split; [assumption|].
  rewrite <- Hn2. rewrite <- (app_nil_r n2) at 2.
  apply matches_at_folded.
Qed.

End Prune.

Section PruneClaim.
Import JS Worker.

(** The example of the specification: of [a.bms], [b.txt] and [c.wav]
    only [b.txt] is unlinked. *)
Lemma prune_example :
  let dir := Samples.work_dir ++ str "/extracted" in
  prune Samples.calm dir Samples.archive_files Samples.start
  = (Ok tt,
     mkState (new_diagnostics None)
             [Unlink (dir ++ str "/b.txt")] 0).
Proof. vm_compute. reflexivity. Qed.

(** C5, where the code departs from it.  The name [notes.wav.txt] has
    the extension [txt], which is not on the allow-list, and yet passes
    the test of the prune loop, which looks for a dot and a listed
    extension at any place of the path: of [a.bms], [notes.wav.txt] and
    [c.wav] the loop unlinks nothing. *)
Theorem prune_keeps_unlisted_extension :
  let dir := Samples.work_dir ++ str "/extracted" in
  let files := [str "a.bms"; str "notes.wav.txt"; str "c.wav"] in
  extname (str "notes.wav.txt") = str ".txt"
  /\ has_allowed_extension (str "notes.wav.txt") = false
  /\ related (str "notes.wav.txt") = true
  /\ prune Samples.calm dir files Samples.start = (Ok tt, Samples.start).
Proof. vm_compute. repeat split. Qed.

End PruneClaim.

Section Sounds.
Import JS Worker.

Variable W : World.

(** A source file of size zero: no child process is started; the file
    is reported as skipped, counted and unlinked, and the handler ends
    as the unlink does. *)
Lemma blank_file_is_skipped (src dest sound : jsstring) (total n : nat)
    (st : state) :
  let sourceFile := path_join src sound in
  let before :=
    trace st ++ [Stat sourceFile;
                 InfoConverted (S n) total sound (str "skip; blank file") []]
  in
  statSync_size W (trace st) sourceFile = Ok 0%N ->
  convert_sound W src dest total n sound st
  = (unlinkSync W before sourceFile,
     mkState (diagnostics st) (before ++ [Unlink sourceFile]) (clock st)).
Proof.
  intros sourceFile before Hsize.
  unfold convert_sound, stat_size, perform. fold sourceFile.
  rewrite Hsize. cbn [N.eqb]. unfold unlink, perform, record.
  cbn [trace diagnostics clock]. subst before.
  now rewrite <- !app_assoc.
Qed.

(** Whatever happens in the [try], the handler ends with the unlink of
    the source file, and returns or throws as the unlink does. *)
Lemma handler_ends_with_unlink (src dest sound : jsstring) (total n : nat)
    (st : state) :
  let sourceFile := path_join src sound in
  exists middle,
    snd (convert_sound W src dest total n sound st)
    = mkState (diagnostics st)
              (trace st ++ middle ++ [Unlink sourceFile]) (clock st)
    /\ fst (convert_sound W src dest total n sound st)
       = unlinkSync W (trace st ++ middle) sourceFile.
Proof.
  intros sourceFile.
  unfold convert_sound, stat_size, run_execa, unlink, perform, record.
  fold sourceFile. cbn [trace diagnostics clock].
  destruct (statSync_size W (trace st) sourceFile) as [size|e].
  - destruct (N.eqb size 0).
    + eexists [_; _]. cbn [fst snd trace diagnostics clock].
      rewrite <- !app_assoc. split; reflexivity.
    + match goal with
      | |- context [execa W ?h ?c ?a ?t ?d] => destruct (execa W h c a t d)
      end.
      * eexists [_; _; _]. cbn [fst snd trace diagnostics clock].
        rewrite <- !app_assoc. split; reflexivity.
      * eexists [_; _; _; _]. cbn [fst snd trace diagnostics clock].
        rewrite <- !app_assoc. split; reflexivity.
  - eexists [_; _; _]. cbn [fst snd trace diagnostics clock].
    rewrite <- !app_assoc. split; reflexivity.
Qed.

(** When no unlink fails, a batch of sound files is handled to its end
    whatever the converter and [statSync] answer, and every source file
    is unlinked. *)
Lemma batch_survives_failed_conversions (src dest : jsstring) (total : nat)
    (sounds : list jsstring) :
  (forall h path, unlinkSync W h path = Ok tt) ->
  forall n st,
    fst (convert_sounds W src dest total n sounds st) = Ok tt
    /\ exists added,
         trace (snd (convert_sounds W src dest total n sounds st))
         = trace st ++ added
         /\ forall sound, In sound sounds ->
                          In (Unlink (path_join src sound)) added.
Proof.
  intros Hunlink.
  induction sounds as [|s sounds IH]; intros n st.
  - simpl. split; [reflexivity|]. exists []. rewrite app_nil_r.
    split; [reflexivity | contradiction].
  - cbn [convert_sounds].
    destruct (handler_ends_with_unlink src dest s total n st)
      as (middle & Hst & Hr).
    rewrite Hunlink in Hr.
    destruct (convert_sound W src dest total n s st) as [r st1] eqn:Hh.
    cbn [fst snd] in Hst, Hr. subst r st1.
    rewrite (@bind_ok _ _ _ _ _ _ _ Hh).
    destruct (IH (S n) (mkState (diagnostics st)
                          (trace st ++ middle ++ [Unlink (path_join src s)])
                          (clock st)))
      as (Hok & added & Htrace & Hall).
    split; [exact Hok|].
    exists ((middle ++ [Unlink (path_join src s)]) ++ added).
    split.
    + rewrite Htrace. cbn [trace]. now rewrite !app_assoc.
    + intros sound [<-|Hin].
      * apply in_or_app. left. apply in_or_app. right. left. reflexivity.
      * apply in_or_app. right. now apply Hall.
Qed.

End Sounds.

Section SoundsClaim.
Import JS Worker.

(** C7, as the code has it.  In a batch of sound files: a source file
    of size zero is handled without a child process (the only actions
    are the size query, the log line that reports it as skipped and
    counts it, and the unlink of the source); the handler of every file
    ends with the unlink of its source, whatever the size query and the
    converter did, and ends as that unlink does; and when the
    destination directory is made, the sources are listed and no unlink
    fails, [prepareSounds] returns without a failure and has unlinked
    every source, whatever the converter answered for any file. *)
Theorem sound_preparation_isolates_conversion_failures :
  forall (W : World) (src dest : jsstring),
    (forall total n sound st,
       let sourceFile := path_join src sound in
       let before :=
         trace st
         ++ [Stat sourceFile;
             InfoConverted (S n) total sound (str "skip; blank file") []] in
       statSync_size W (trace st) sourceFile = Ok 0%N ->
       convert_sound W src dest total n sound st
       = (unlinkSync W before sourceFile,
          mkState (diagnostics st) (before ++ [Unlink sourceFile])
                  (clock st)))
    /\ (forall total n sound st,
          let sourceFile := path_join src sound in
          exists middle,
            snd (convert_sound W src dest total n sound st)
            = mkState (diagnostics st)
                      (trace st ++ middle ++ [Unlink sourceFile]) (clock st)
            /\ fst (convert_sound W src dest total n sound st)
               = unlinkSync W (trace st ++ middle) sourceFile)
    /\ ((forall h path, unlinkSync W h path = Ok tt) ->
        forall st sounds,
          mkdirp_sync W (trace st) dest = Ok tt ->
          glob_sync W (trace st ++ [Mkdirp dest]) (str "*.{wav,mp3,ogg}")
                    src false true = Ok sounds ->
          fst (prepareSounds W src dest st) = Ok tt
          /\ forall sound,
               In sound sounds ->
               In (Unlink (path_join src sound))
                  (trace (snd (prepareSounds W src dest st)))).
Proof.
  intros W src dest.
  split; [intros; now apply blank_file_is_skipped|].
  split; [intros; apply handler_ends_with_unlink|].
  intros Hunlink st sounds Hmk Hglob.
  assert (H1 : mkdirp W dest st = (Ok tt, record (Mkdirp dest) st)).
  { unfold mkdirp, perform. now rewrite Hmk. }
  assert (H2 : glob W (str "*.{wav,mp3,ogg}") src false true
                    (record (Mkdirp dest) st)
               = (Ok sounds,
                  record (Glob (str "*.{wav,mp3,ogg}") src false true)
                         (record (Mkdirp dest) st))).
  { unfold glob, perform. cbn [record trace]. now rewrite Hglob. }
  unfold prepareSounds.
  rewrite (@bind_ok _ _ _ _ _ _ _ H1), (@bind_ok _ _ _ _ _ _ _ H2).
  destruct (@batch_survives_failed_conversions W src dest (length sounds)
              sounds Hunlink 0%nat
              (record (Glob (str "*.{wav,mp3,ogg}") src false true)
                      (record (Mkdirp dest) st)))
    as (Hok & added & Htrace & Hall).
  split; [exact Hok|].
  intros sound Hin. rewrite Htrace. apply in_or_app. right. now apply Hall.
Qed.

Lemma sound_preparation_isolates_conversion_failures_witness :
  let W := Samples.failing "sox" Samples.cannot_decode in
  let src := Samples.work_dir ++ str "/extracted" in
  let dest := Samples.work_dir ++ str "/render/song" in
  fst (prepareSounds W src dest Samples.start) = Ok tt
  /\ forall sound,
       In sound [str "c.wav"] ->
       In (Unlink (path_join src sound))
          (trace (snd (prepareSounds W src dest Samples.start))).
Proof.
  intros W src dest.
  refine (proj2 (proj2 (@sound_preparation_isolates_conversion_failures
                          W src dest)) _ Samples.start [str "c.wav"] _ _).
  - intros h path. reflexivity.
  - reflexivity.
  - reflexivity.
Defined.

(** C7, refuted as stated.  The top of the archive holds a directory
    named [bgm.ogg] beside the file [c.wav]; the listing of the sounds
    returns both.  The converter fails on the directory, which is
    caught, and then the unlink of the [finally] fails on it:
    [prepareSounds] throws that failure, and [render] ends with it as
    its error, without the event of the stage. *)
Lemma failed_unlink_fails_sound_preparation :
  let W := Samples.with_directory in
  let src := Samples.work_dir ++ str "/extracted" in
  let dest := Samples.work_dir ++ str "/render/song" in
  let d := diagnostics (render W (str "http://example.com/a.zip") None
                               Samples.start) in
  glob_sync W [Mkdirp dest] (str "*.{wav,mp3,ogg}") src false true
  = Ok [str "bgm.ogg"; str "c.wav"]
  /\ fst (prepareSounds W src dest Samples.start)
     = Throw Samples.is_a_directory
  /\ In (WarnCannotConvert (path_join src (str "bgm.ogg")))
        (trace (snd (prepareSounds W src dest Samples.start)))
  /\ error d = Some (stack Samples.is_a_directory)
  /\ ~ In (str "render:converted") (map event (events d)).
Proof.
  vm_compute. repeat split.
  - do 4 right. left. reflexivity.
  - intros H.
    repeat match goal with
           | H : _ \/ _ |- _ => destruct H as [H|H]; [discriminate|]
           end.
    exact H.
Qed.

End SoundsClaim.

Section ResponseWitness.
Import JS Dispatcher.

Lemma last_nonblank_line_is_parsed_witness :
  last_line (join newline [Samples.a_is "1"; []; Samples.a_is "2"])
  = Some (Samples.a_is "2").
Proof.
  apply (proj1 (proj2 (last_nonblank_line_is_parsed
                         (Samples.env (fun _ _ => Ok []))
                         (join newline
                               [Samples.a_is "1"; []; Samples.a_is "2"])))).
  exists [Samples.a_is "1"; []], []. repeat split. constructor.
Defined.

End ResponseWitness.

(* ================================================================== *)
(** * Further properties of the dispatcher *)
(* ================================================================== *)

Section Cycle.
Import JS Dispatcher.

Lemma updateOne_map {A} (p : song -> A) (id : N) (f : song -> song)
    (c : collection) :
  (forall x, p (f x) = p x) -> map p (updateOne id f c) = map p c.
Proof.
  intros Hf. induction c as [|x c IH]; simpl; [reflexivity|].
  destruct (N.eqb (_id x) id); simpl; [now rewrite Hf | now rewrite IH].
Qed.

Lemma attempt_keeps (E : Env) (s x : song) :
  _id (attempt E s x) = _id x
  /\ url (attempt E s x) = url x
  /\ eventId (attempt E s x) = eventId x
  /\ addedAt (attempt E s x) = addedAt x.
Proof.
  unfold attempt.
  destruct (axios_put E _ _) as [data|e];
    [destruct (parse_response E data)|]; repeat split.
Qed.

Lemma dispatch_map {A} (E : Env) (p : song -> A) (order : list song) :
  (forall s x, p (attempt E s x) = p x) ->
  forall c, map p (dispatch_in_order E order c) = map p c.
Proof.
  intros Hp. unfold dispatch_in_order.
  induction order as [|s order IH]; intros c; simpl; [reflexivity|].
  rewrite IH. apply updateOne_map. apply Hp.
Qed.

(** With distinct identifiers [updateOne] rewrites the records of the
    identifier and no other. *)
Lemma updateOne_unique (id : N) (f : song -> song) (c : collection) :
  NoDup (map _id c) ->
  updateOne id f c = map (fun x => if N.eqb (_id x) id then f x else x) c.
Proof.
  induction c as [|x c IH]; simpl; intros Hnd; [reflexivity|].
  inversion Hnd as [|? ? Hx Hc]; subst.
  destruct (N.eqb (_id x) id) eqn:Hid.
  - f_equal. apply N.eqb_eq in Hid.
    transitivity (map (fun y : song => y) c); [symmetry; apply map_id|].
    apply map_ext_in. intros y Hy.
    destruct (N.eqb (_id y) id) eqn:Hy'; [|reflexivity].
    apply N.eqb_eq in Hy'. exfalso. apply Hx. rewrite Hid, <- Hy'.
    now apply in_map.
  - f_equal. now apply IH.
Qed.

Lemma written_id (E : Env) (done : list song) (x : song) :
  _id (written E done x) = _id x.
Proof.
  unfold written. destruct (existsb _ done); [|reflexivity].
  apply attempt_keeps.
Qed.

Lemma dispatch_from (E : Env) (c : collection) (order : list song) :
  NoDup (map _id c) ->
  forall done,
    NoDup (map _id (done ++ order)) ->
    (forall s, In s order -> In s c) ->
    dispatch_in_order E order (map (written E done) c)
    = map (written E (done ++ order)) c.
Proof.
  intros Hc. unfold dispatch_in_order.
  induction order as [|s order IH]; intros done Hnd Hin; simpl.
  - now rewrite app_nil_r.
  - assert (Hids : map _id (map (written E done) c) = map _id c).
    { rewrite map_map. apply map_ext. apply written_id. }
    rewrite updateOne_unique by (now rewrite Hids).
    rewrite map_map.
    replace (done ++ s :: order) with ((done ++ [s]) ++ order)
      by (now rewrite <- app_assoc).
    rewrite <- IH.
    + f_equal. apply map_ext_in. intros x Hx.
      rewrite written_id. unfold written at 3.
      rewrite existsb_app. simpl. rewrite orb_false_r.
      destruct (N.eqb (_id x) (_id s)) eqn:Hxs.
      * apply N.eqb_eq in Hxs.
        assert (x = s).
        { apply (@same_id_same_record c); auto. apply Hin. now left. }
        subst x. rewrite N.eqb_refl, orb_true_r.
        unfold written.
        destruct (existsb (fun s0 => N.eqb (_id s0) (_id s)) done) eqn:Hd;
          [|reflexivity].
        exfalso. apply existsb_exists in Hd as (y & Hy & Hys).
        apply N.eqb_eq in Hys. rewrite map_app in Hnd. simpl in Hnd.
        apply NoDup_remove_2 in Hnd. apply Hnd. apply in_or_app. left.
        rewrite <- Hys. now apply in_map.
      * rewrite N.eqb_sym, Hxs, orb_false_r. reflexivity.
    + now rewrite <- app_assoc.
    + intros y Hy. apply Hin. now right.
Qed.

End Cycle.

Section CycleProperties.
Import JS Dispatcher.

(** The records selected have distinct identifiers when all records
    have. *)
Lemma pending_ids_distinct (c : collection) :
  NoDup (map _id c) -> NoDup (map _id (find_pending c)).
Proof.
  unfold find_pending. induction c as [|s c IH]; simpl; intros Hnd.
  - constructor.
  - apply NoDup_cons_iff in Hnd as [Hs Hc].
    destruct (pending s); simpl; [|now apply IH].
    apply NoDup_cons_iff. split; [|now apply IH].
    intros Hin. apply Hs.
    apply in_map_iff in Hin as (x & Hx & Hin).
    apply filter_In in Hin as [Hin _].
    apply in_map_iff. exists x. auto.
Qed.

(** X1.  The mappers of a dispatch cycle may end in any order: with
    distinct record identifiers, writing the attempts of the selected
    jobs in any order gives the collection that writing them in the
    order of the query gives. *)
Theorem dispatch_order_is_irrelevant :
  forall (E : Env) (c : collection) (order : list song),
    NoDup (map _id c) ->
    Permutation order (find_pending c) ->
    dispatch_in_order E order c = work E c.
Proof.
  intros E c order Hnd Hperm.
  assert (Hstart : map (written E []) c = c).
  { rewrite <- (map_id c) at 2. apply map_ext. reflexivity. }
  rewrite <- Hstart at 1.
  rewrite dispatch_from; try assumption.
  - rewrite work_map by assumption. simpl.
    apply map_ext_in. intros x Hx. unfold written, cycle.
    destruct (pending x) eqn:Hp.
    + assert (Hin : In x order).
      { apply (Permutation_in x (Permutation_sym Hperm)).
        apply filter_In. auto. }
      replace (existsb (fun s => N.eqb (_id s) (_id x)) order) with true;
        [reflexivity|].
      symmetry. apply existsb_exists. exists x.
      split; [assumption | apply N.eqb_refl].
    + destruct (existsb (fun s => N.eqb (_id s) (_id x)) order) eqn:He;
        [|reflexivity].
      exfalso. apply existsb_exists in He as (s & Hs & Hid).
      apply N.eqb_eq in Hid.
      apply (Permutation_in s Hperm) in Hs.
      apply filter_In in Hs as [Hs Hps].
      assert (s = x) by (apply (@same_id_same_record c); auto).
      subst s. congruence.
  - simpl. apply (Permutation_NoDup (l := map _id (find_pending c))).
    + apply Permutation_map. now apply Permutation_sym.
    + now apply pending_ids_distinct.
  - intros s Hs. apply (Permutation_in s Hperm) in Hs.
    now apply filter_In in Hs as [Hs _].
Qed.

Lemma dispatch_order_is_irrelevant_witness :
  let E := Samples.env (fun _ u =>
             if jsstring_eqb u (str "http://example.com/b.zip")
             then Throw Samples.connection_refused
             else Ok Samples.failed_render_text) in
  let a := Samples.imported 1 "http://example.com/a.zip" in
  let b := Samples.imported 2 "http://example.com/b.zip" in
  let d := Samples.imported 3 "http://example.com/d.zip" in
  dispatch_in_order E [d; a; b] [a; b; d] = work E [a; b; d].
Proof.
  intros E a b d.
  apply dispatch_order_is_irrelevant.
  - repeat constructor; simpl; intuition discriminate.
  - change (find_pending [a; b; d]) with [a; b; d].
    apply Permutation_sym.
    apply (@Permutation_cons_app _ [b; d] [d] [b] a).
    simpl. apply perm_swap.
Defined.

(** X2.  A dispatch cycle neither adds nor removes a record, and leaves
    the identifier, the URL, the event identifier and the insertion
    time of every record as they were. *)
Theorem cycle_keeps_the_imported_fields :
  forall (E : Env) (c : collection),
    length (work E c) = length c
    /\ map _id (work E c) = map _id c
    /\ map url (work E c) = map url c
    /\ map eventId (work E c) = map eventId c
    /\ map addedAt (work E c) = map addedAt c.
Proof.
  intros E c.
  change (work E c) with (dispatch_in_order E (find_pending c) c).
  assert (Hid : map _id (dispatch_in_order E (find_pending c) c) = map _id c)
    by (apply dispatch_map; intros; apply attempt_keeps).
  split.
  { rewrite <- (length_map _id), Hid. apply length_map. }
  split; [exact Hid|].
  repeat split; apply dispatch_map; intros; apply attempt_keeps.
Qed.

(** X3.  When the attempt on a selected job fails, because the HTTP
    call threw or because the text of the answer did not parse, the
    cycle leaves for that job the record with [renderError] set to the
    stack text of the error, followed by a line with the response body
    when the error carries one, and [renderedAt] set; [renderResult] is
    as it was before the attempt. *)
Theorem failed_attempt_is_stored_as_error :
  forall (E : Env) (c : collection) (s : song) (e : js_error),
    NoDup (map _id c) ->
    In s (find_pending c) ->
    (axios_put E (WORKER_URL E ++ str "/renders/" ++ uuidv4 E s) (url s)
       = Throw e
     \/ exists data,
          axios_put E (WORKER_URL E ++ str "/renders/" ++ uuidv4 E s) (url s)
            = Ok data
          /\ parse_response E data = Throw e) ->
    let s' := set_error (describe e) (new_Date E s) s in
    In s' (work E c)
    /\ (forall x, In x (work E c) -> _id x = _id s -> x = s')
    /\ renderResult s' = renderResult s
    /\ renderedAt s' = Some (new_Date E s)
    /\ renderError s'
       = Some (stack e ++
               match response e with
               | Some body => newline :: str "Response: " ++ body
               | None => []
               end).
Proof.
  intros E c s e Hnd Hs Hfail s'.
  assert (Ha : attempt E s = set_error (describe e) (new_Date E s)).
  { unfold attempt. destruct Hfail as [-> | (data & -> & ->)]; reflexivity. }
  destruct (work_record E c s Hnd Hs) as [Hin Huniq].
  rewrite Ha in Hin, Huniq.
  repeat split; assumption.
Qed.

Lemma failed_attempt_is_stored_as_error_witness :
  let refused :=
    mkError (str "Error: Request failed with status code 400") None
            (Some (str "URL must be valid")) in
  let E := Samples.env (fun _ _ => Throw refused) in
  let s := Samples.imported 1 "ftp://example.com/a.zip" in
  In (set_error (stack refused ++ newline :: str "Response: URL must be valid")
                (new_Date E s) s)
     (work E [s]).
Proof.
  intros refused E s.
  refine (proj1 (@failed_attempt_is_stored_as_error E [s] s refused _ _ _)).
  - repeat constructor. simpl. tauto.
  - left. reflexivity.
  - left. reflexivity.
Defined.

End CycleProperties.

Section ImportProperties.
Import JS Dispatcher.

Variable new_ObjectId : collection -> N.

Lemma present_iff (u : jsstring) (c : collection) :
  present u c = true <-> In u (map url c).
Proof.
  unfold present. rewrite existsb_exists. split.
  - intros (s & Hs & Hu). apply jsstring_eqb_eq in Hu. subst u.
    now apply in_map.
  - intros H. apply in_map_iff in H as (s & Hu & Hs). exists s.
    split; [assumption|]. subst u. apply jsstring_eqb_refl.
Qed.

Lemma present_app (u : jsstring) (c c' : collection) :
  present u (c ++ c') = (present u c || present u c')%bool.
Proof. unfold present. apply existsb_app. Qed.

(** A bulk write only appends: the records it adds are new, one per
    URL that was missing, each with a URL of its own. *)
Lemma bulkWrite_appends (ops : list operation) :
  forall c,
    exists added,
      bulkWrite new_ObjectId ops c = c ++ added
      /\ Forall (inserted_by ops c) added
      /\ NoDup (map url added).
Proof.
  induction ops as [|o ops IH]; intros c; simpl.
  - exists []. rewrite app_nil_r. repeat split; constructor.
  - unfold upsert. destruct (present (op_url o) c) eqn:Hp.
    + destruct (IH c) as (added & Heq & Hall & Hnd).
      exists added. split; [assumption|]. split; [|assumption].
      eapply Forall_impl; [|exact Hall].
      intros s ((o' & Ho' & Hrest) & Hfields). split; [|assumption].
      exists o'. split; [now right | assumption].
    + set (n := mkSong (new_ObjectId c) (op_url o) (op_eventId o)
                       (op_addedAt o) None None None).
      destruct (IH (c ++ [n])) as (added & Heq & Hall & Hnd).
      exists (n :: added). split; [now rewrite Heq, <- app_assoc|].
      split.
      * constructor.
        -- split; [exists o; repeat split; now left | repeat split].
           exact Hp.
        -- eapply Forall_impl; [|exact Hall].
           intros s ((o' & Ho' & Hrest) & Hr & He & Hd & Hs).
           split; [exists o'; split; [now right | assumption]|].
           repeat split; try assumption.
           rewrite present_app in Hs. now apply orb_false_iff in Hs as [Hs _].
      * simpl. constructor; [|assumption].
        intros Hin. apply in_map_iff in Hin as (s & Hu & Hs).
        rewrite Forall_forall in Hall.
        destruct (Hall s Hs) as (_ & _ & _ & _ & Hfresh).
        rewrite present_app in Hfresh.
        apply orb_false_iff in Hfresh as [_ Hfresh].
        unfold present in Hfresh. simpl in Hfresh.
        rewrite Hu, jsstring_eqb_refl in Hfresh. discriminate.
Qed.

End ImportProperties.

Section ImportExtras.
Import JS Dispatcher.

Lemma operations_eventId (e : jsstring) (clock : nat -> Z)
    (urls : list jsstring) :
  forall i o, In o (operations_from e clock i urls) ->
              op_eventId o = e /\ In (op_url o) urls.
Proof.
  induction urls as [|u urls IH]; intros i o; simpl; [contradiction|].
  intros [<-|Ho]; [split; [reflexivity | now left]|].
  destruct (IH _ _ Ho) as [He Hu]. split; [assumption | now right].
Qed.

(** X4.  An applied [import] only appends to the collection: every
    record it adds has a URL of the list that the collection lacked,
    the event identifier of the file, and neither render result, nor
    render error, nor render time; no two added records share a URL;
    afterwards every URL of the list is present; and when no two
    records shared a URL before, none do afterwards. *)
Theorem import_only_appends :
  forall (new_ObjectId : collection -> N) (clock : nat -> Z)
         (eventId' : jsstring) (urls : list jsstring) (c c1 : collection),
    import new_ObjectId clock eventId' urls true c = Some c1 ->
    exists added,
      c1 = c ++ added
      /\ Forall (fun s =>
                   In (url s) urls /\ eventId s = eventId'
                   /\ renderResult s = None /\ renderError s = None
                   /\ renderedAt s = None /\ present (url s) c = false)
                added
      /\ NoDup (map url added)
      /\ (forall u, In u urls -> present u c1 = true)
      /\ (NoDup (map url c) -> NoDup (map url c1)).
Proof.
  intros g clock e urls c c1 H. unfold import in H.
  destruct (valid_eventId e); [|discriminate]. injection H as <-.
  destruct (bulkWrite_appends g (operations_from e clock 0 urls) c)
    as (added & Heq & Hall & Hnd).
  exists added. split; [exact Heq|].
  split.
  { eapply Forall_impl; [|exact Hall].
    intros s ((o & Ho & Hu & He & _) & Hr & Herr & Hd & Hp).
    destruct (operations_eventId _ _ _ _ _ Ho) as [Hoe Hou].
    repeat split; try assumption; congruence. }
  split; [exact Hnd|]. split.
  - intros u Hu.
    pose proof (bulkWrite_adds g (operations_from e clock 0 urls) c) as Hadds.
    rewrite Forall_forall in Hadds.
    rewrite <- (operations_urls e clock urls 0) in Hu.
    apply in_map_iff in Hu as (o & <- & Ho). now apply Hadds.
  - intros Hc. rewrite Heq, map_app. apply NoDup_app; try assumption.
    intros u Hu Hu'. apply in_map_iff in Hu' as (s & <- & Hs).
    rewrite Forall_forall in Hall.
    destruct (Hall s Hs) as (_ & _ & _ & _ & Hfresh).
    apply present_iff in Hu. congruence.
Qed.

Lemma import_only_appends_witness :
  let g := fun c : collection => N.of_nat (length c) in
  let c := [Samples.imported 0 "http://example.com/a.zip"] in
  exists added,
    import g (fun _ => 1550000000000%Z) (str "event1")
           [str "http://example.com/a.zip"; str "http://example.com/b.zip"]
           true c
    = Some (c ++ added)
    /\ map url added = [str "http://example.com/b.zip"].
Proof.
  intros g c.
  destruct (@import_only_appends g (fun _ => 1550000000000%Z) (str "event1")
              [str "http://example.com/a.zip"; str "http://example.com/b.zip"]
              c (c ++ [Samples.imported 1 "http://example.com/b.zip"])
              eq_refl)
    as (added & Heq & _).
  apply app_inv_head in Heq. subst added.
  eexists. split; reflexivity.
Defined.

(** X5.  Import and dispatch compose: after an applied [import], every
    URL of the list that the collection lacked belongs to a record that
    the query of the next dispatch cycle selects, and that record has
    the event identifier of the file and no render time yet. *)
Theorem imported_url_is_selected :
  forall (new_ObjectId : collection -> N) (clock : nat -> Z)
         (eventId' : jsstring) (urls : list jsstring) (c c1 : collection)
         (u : jsstring),
    import new_ObjectId clock eventId' urls true c = Some c1 ->
    In u urls ->
    present u c = false ->
    exists s,
      In s (find_pending c1)
      /\ url s = u /\ eventId s = eventId' /\ renderedAt s = None.
Proof.
  intros g clock e urls c c1 u H Hu Hnew. unfold import in H.
  destruct (valid_eventId e); [|discriminate]. injection H as <-.
  destruct (bulkWrite_appends g (operations_from e clock 0 urls) c)
    as (added & Heq & Hall & _).
  pose proof (bulkWrite_adds g (operations_from e clock 0 urls) c) as Hadds.
  rewrite Forall_forall in Hadds, Hall.
  rewrite <- (operations_urls e clock urls 0) in Hu.
  apply in_map_iff in Hu as (o & <- & Ho).
  specialize (Hadds o Ho). rewrite Heq in Hadds |- *.
  rewrite present_app, Hnew in Hadds. simpl in Hadds.
  unfold present in Hadds. apply existsb_exists in Hadds as (s & Hs & Hus).
  apply jsstring_eqb_eq in Hus.
  destruct (Hall s Hs) as ((o' & Ho' & _ & He & _) & Hr & _ & Hd & _).
  exists s. split.
  - apply filter_In. split; [apply in_or_app; now right|].
    unfold pending. now rewrite Hr.
  - destruct (operations_eventId _ _ _ _ _ Ho') as [Hoe _].
    repeat split; congruence.
Qed.

Lemma imported_url_is_selected_witness :
  let g := fun c : collection => N.of_nat (length c) in
  exists s,
    In s (find_pending [Samples.imported 0 "http://example.com/b.zip"])
    /\ url s = str "http://example.com/b.zip"
    /\ eventId s = str "event1" /\ renderedAt s = None.
Proof.
  intros g.
  refine (@imported_url_is_selected g (fun _ => 1550000000000%Z)
            (str "event1") [str "http://example.com/b.zip"] []
            [Samples.imported 0 "http://example.com/b.zip"]
            (str "http://example.com/b.zip") _ _ _).
  - reflexivity.
  - left. reflexivity.
  - reflexivity.
Defined.

End ImportExtras.

Section ResponseProperties.
Import JS Dispatcher.

Lemma split_nonempty (sep : N) (s : jsstring) : split sep s <> [].
Proof.
  destruct s as [|c s]; simpl; [discriminate|].
  destruct (N.eqb c sep); [discriminate|].
  destruct (split sep s); discriminate.
Qed.

Lemma split_app (sep : N) (a b : jsstring) :
  split sep (a ++ sep :: b) = split sep a ++ split sep b.
Proof.
  induction a as [|c a IH]; simpl.
  - now rewrite N.eqb_refl.
  - destruct (N.eqb c sep); [now rewrite IH|].
    rewrite IH. pose proof (split_nonempty sep a) as Hne.
    destruct (split sep a) as [|l ls]; [contradiction | reflexivity].
Qed.

Lemma split_all (P : N -> Prop) (sep : N) (s : jsstring) :
  Forall P s -> Forall (Forall P) (split sep s).
Proof.
  induction s as [|c s IH]; simpl; intros H.
  - repeat constructor.
  - inversion H as [|? ? Hc Hs]; subst. specialize (IH Hs).
    destruct (N.eqb c sep); [constructor; [constructor | assumption]|].
    destruct (split sep s) as [|l ls]; [repeat constructor; assumption|].
    inversion IH; subst. constructor; [constructor|]; assumption.
Qed.

(** X6.  White space after the last line does not change what is
    parsed: a body followed by a newline and any run of white space
    (further newlines, carriage returns, blanks) has the same
    authoritative line, and so the same parse result, as the body. *)
Theorem trailing_white_space_is_ignored :
  forall (E : Env) (data tail : jsstring),
    Forall (fun c => is_white_space c = true) tail ->
    last_line (data ++ newline :: tail) = last_line data
    /\ parse_response E (data ++ newline :: tail) = parse_response E data.
Proof.
  intros E data tail Htail.
  assert (Hl : last_line (data ++ newline :: tail) = last_line data).
  { unfold last_line. rewrite split_app, filter_app.
    replace (filter (fun r => truthy (trim r)) (split newline tail))
      with (@nil jsstring); [now rewrite app_nil_r|].
    symmetry. apply filter_nil_iff.
    pose proof (@split_all _ newline tail Htail) as Hall.
    eapply Forall_impl; [|exact Hall].
    intros r Hr. destruct (truthy (trim r)) eqn:Hb; [|reflexivity].
    apply nonblank_iff in Hb. apply Exists_exists in Hb as (x & Hx & Hw).
    rewrite Forall_forall in Hr. specialize (Hr x Hx). congruence. }
  split; [exact Hl|]. unfold parse_response. now rewrite Hl.
Qed.

Lemma trailing_white_space_is_ignored_witness :
  last_line (Samples.a_is "2" ++ newline :: [13; 10; 32]%N)
  = last_line (Samples.a_is "2").
Proof.
  refine (proj1 (@trailing_white_space_is_ignored
                   (Samples.env (fun _ _ => Ok []))
                   (Samples.a_is "2") [13; 10; 32]%N _)).
  repeat constructor.
Defined.

End ResponseProperties.

(* ================================================================== *)
(** * Further properties of the worker *)
(* ================================================================== *)

Section RenderProperties.
Import JS Worker.

(** X7.  Whatever happens, [render] only appends to the events it was
    given, leaves the operation identifier alone, and the names of the
    events it appends are an initial segment, never empty, of
    [render:start] followed by the events of the stages in their
    order. *)
Theorem render_appends_an_initial_segment :
  forall (W : World) (url : jsstring) (out : option jsstring) (st : state),
    let d := diagnostics (render W url out st) in
    operationId d = operationId (diagnostics st)
    /\ exists new n,
         events d = events (diagnostics st) ++ new
         /\ map event new
            = map str (firstn (S n) ("render:start"%string :: stage_tags)).
Proof.
  intros W url out st d.
  destruct (render_cases W url out st) as (Hop & _ & Hcases).
  fold d in Hop, Hcases. split; [exact Hop|].
  destruct Hcases
    as [(done & tag & e & new & Hf & Hev & Hmap & _)
       | (stf & new & _ & Hev & Hmap & _)].
  - destruct (fails_at_tags W _ _ _ _ _ _ (has_tags_render_try W url out) Hf)
      as [later Hsplit].
    exists new, (length done). split; [exact Hev|].
    rewrite Hmap, Hsplit. cbn [firstn].
    rewrite firstn_app, Nat.sub_diag, firstn_all. cbn [firstn].
    now rewrite app_nil_r.
  - exists new, (length stage_tags). split; [exact Hev|].
    rewrite Hmap. cbn [firstn]. now rewrite firstn_all.
Qed.

(** X8.  Started on a diagnostics without error, a [render] that leaves
    no error has logged [render:start] and the event of every stage,
    in the order of the stages, and has set the output path: the
    destination when one was asked for, the encoded file of the working
    directory otherwise. *)
Theorem render_without_error_is_complete :
  forall (W : World) (url : jsstring) (out : option jsstring) (st : state),
    error (diagnostics st) = None ->
    let d := diagnostics (render W url out st) in
    error d = None ->
    (exists new,
       events d = events (diagnostics st) ++ new
       /\ map event new = map str ("render:start"%string :: stage_tags))
    /\ outFile d
       = Some match out with
              | Some destination =>
                  if truthy destination then destination
                  else workDir W ++ str "/song.mp3"
              | None => workDir W ++ str "/song.mp3"
              end.
Proof.
  intros W url out st Herr0 d Herr.
  destruct (render_cases W url out st) as (_ & _ & Hcases).
  fold d in Hcases.
  destruct Hcases
    as [(done & tag & e & new & _ & _ & _ & _ & He)
       | (stf & new & _ & Hev & Hmap & Hend)]; [congruence|].
  destruct (fst (deliver W (workDir W ++ str "/song.mp3") out stf))
    as [[]|e].
  - destruct Hend as [_ Hout]. split; [|exact Hout].
    exists new. auto.
  - destruct Hend as (He & _). congruence.
Qed.

Lemma render_without_error_is_complete_witness :
  let d := diagnostics (render Samples.calm (str "http://example.com/a.zip")
                               (Some (str "/out/a.mp3")) Samples.start) in
  outFile d = Some (str "/out/a.mp3").
Proof.
  intros d.
  refine (proj2 (@render_without_error_is_complete Samples.calm
                   (str "http://example.com/a.zip")
                   (Some (str "/out/a.mp3")) Samples.start _ _)).
  - reflexivity.
  - vm_compute. reflexivity.
Defined.

End RenderProperties.

Section PruneProperties.
Import JS Worker.

Lemma fold_case_idempotent (c : N) : fold_case (fold_case c) = fold_case c.
Proof.
  unfold fold_case.
  destruct (N.leb 65 c && N.leb c 90)%bool eqn:H; [|now rewrite H].
  apply andb_true_iff in H as [H1 H2].
  apply N.leb_le in H1, H2.
  replace (N.leb (c + 32) 90) with false; [now rewrite andb_false_r|].
  symmetry. apply N.leb_gt. lia.
Qed.

Lemma matches_at_fold_case (word s : jsstring) :
  matches_at word (map fold_case s) = matches_at word s.
Proof.
  revert s. induction word as [|w word IH]; intros [|c s]; simpl;
    try reflexivity.
  now rewrite fold_case_idempotent, IH.
Qed.

Lemma matches_here_fold_case (s : jsstring) :
  matches_here (map fold_case s) = matches_here s.
Proof.
  destruct s as [|c s]; [reflexivity|]. unfold matches_here. cbn [map].
  f_equal.
  - destruct (N.eqb c dot) eqn:Hc.
    + apply N.eqb_eq in Hc. subst c. reflexivity.
    + apply N.eqb_neq. intros H. apply fold_case_dot in H.
      apply N.eqb_neq in Hc. contradiction.
  - induction extensions as [|e es IH]; [reflexivity|].
    simpl. now rewrite matches_at_fold_case, IH.
Qed.

Lemma related_fold_case (s : jsstring) :
  related (map fold_case s) = related s.
Proof.
  induction s as [|c s IH]; [reflexivity|].
  change (related (map fold_case (c :: s)))
    with (matches_here (map fold_case (c :: s))
          || related (map fold_case s))%bool.
  change (related (c :: s)) with (matches_here (c :: s) || related s)%bool.
  now rewrite matches_here_fold_case, IH.
Qed.

(** X9.  The test of the prune loop ignores the case of ASCII letters:
    two paths that differ only in the case of the letters [A]-[Z] are
    both kept or both removed. *)
Theorem prune_test_ignores_case :
  forall s t : jsstring,
    map fold_case s = map fold_case t -> related s = related t.
Proof.
  intros s t H.
  now rewrite <- (related_fold_case s), <- (related_fold_case t), H.
Qed.

Lemma prune_test_ignores_case_witness :
  related (str "BGM/Kick.WAV") = related (str "bgm/kick.wav").
Proof.
  apply prune_test_ignores_case. reflexivity.
Defined.

(** X10.  In any world the prune loop unlinks nothing but files of the
    list that fail its test, each under the extraction directory; a
    file whose name ends with a dot and a listed extension, in any
    case, is never unlinked; and when the loop returns, every file of
    the list that fails the test has been unlinked. *)
Theorem prune_unlinks_only_unrelated_files :
  forall (W : World) (dir : jsstring) (files : list jsstring) (st : state),
    exists added,
      trace (snd (prune W dir files st)) = trace st ++ added
      /\ (forall a, In a added ->
            exists f, In f files /\ related f = false
                      /\ a = Unlink (dir ++ slash :: f))
      /\ (forall f, has_allowed_extension f = true ->
                    ~ In (Unlink (dir ++ slash :: f)) added)
      /\ (fst (prune W dir files st) = Ok tt ->
          forall f, In f files -> related f = false ->
                    In (Unlink (dir ++ slash :: f)) added).
Proof.
  intros W dir files st.
  destruct (prune_trace W dir files st) as (k & Htrace & Hok).
  cbv zeta in Htrace, Hok.
  set (unrelated := filter (fun f => negb (related f)) files) in *.
  exists (map (fun f => Unlink (dir ++ slash :: f)) (firstn k unrelated)).
  split; [exact Htrace|].
  assert (Hsub : forall f, In f (firstn k unrelated) ->
                           In f files /\ related f = false).
  { intros f Hf.
    assert (Hin' : In f unrelated).
    { rewrite <- (firstn_skipn k unrelated). apply in_or_app. now left. }
    apply filter_In in Hin' as [Hin Hr].
    split; [assumption|]. now apply negb_true_iff in Hr. }
  split; [|split].
  - intros a Ha. apply in_map_iff in Ha as (f & <- & Hf).
    exists f. destruct (Hsub f Hf). auto.
  - intros f Hallowed Hin. apply in_map_iff in Hin as (g & Hg & Hin).
    injection Hg as Hg. apply app_inv_head in Hg. injection Hg as ->.
    destruct (Hsub f Hin) as [_ Hr].
    apply allowed_extension_is_related in Hallowed. congruence.
  - intros Hret f Hf Hr. rewrite (Hok Hret).
    apply (in_map (fun f => Unlink (dir ++ slash :: f))).
    apply filter_In. split; [assumption|]. now rewrite Hr.
Qed.

Lemma prune_unlinks_only_unrelated_files_witness :
  let dir := Samples.work_dir ++ str "/extracted" in
  exists added,
    trace (snd (prune Samples.calm dir Samples.archive_files Samples.start))
    = added
    /\ In (Unlink (dir ++ slash :: str "b.txt")) added.
Proof.
  intros dir.
  destruct (@prune_unlinks_only_unrelated_files Samples.calm dir
              Samples.archive_files Samples.start)
    as (added & Htrace & _ & _ & Hall).
  exists added. split; [exact Htrace|].
  apply Hall; [reflexivity | right; left; reflexivity | reflexivity].
Defined.

End PruneProperties.

Section ChartProperties.
Import JS Worker.

Local Open Scope Z_scope.

Lemma filter_length_perm {A} (p : A -> bool) (l l' : list A) :
  Permutation l l' -> length (filter p l) = length (filter p l').
Proof.
  intros H. induction H as [|x l l' _ IH|x y l|l l' l'' _ IH1 _ IH2]; simpl.
  - reflexivity.
  - destruct (p x); simpl; congruence.
  - destruct (p x), (p y); reflexivity.
  - congruence.
Qed.

Lemma sorted_around (R : chart -> chart -> Prop) (l1 l2 : list chart)
    (c : chart) :
  StronglySorted R (l1 ++ c :: l2) ->
  Forall (fun x => R x c) l1 /\ Forall (R c) l2.
Proof.
  induction l1 as [|x l1 IH]; simpl; intros H.
  - inversion H; subst. split; [constructor | assumption].
  - inversion H as [|? ? Hs Hx]; subst.
    destruct (IH Hs) as [H1 H2]. split; [|assumption].
    constructor; [|assumption].
    rewrite Forall_forall in Hx. apply Hx. apply in_or_app. right. now left.
Qed.

Lemma filter_none {A} (p : A -> bool) (l : list A) :
  Forall (fun x => p x = false) l -> filter p l = [].
Proof. apply filter_nil_iff. Qed.

Lemma select_chart_none (cs : list chart) :
  select_chart cs = None <-> cs = [].
Proof.
  split; [|intros ->; reflexivity].
  unfold select_chart, median_index.
  intros Hnone. apply nth_error_None in Hnone.
  destruct cs as [|x cs]; [reflexivity|]. exfalso.
  rewrite <- (Permutation_length (sort_charts_perm (x :: cs))) in Hnone.
  simpl length in Hnone.
  assert ((S (length cs) - 1) / 2 < S (length cs))%nat
    by (apply Nat.Div0.div_lt_upper_bound; lia).
  lia.
Qed.

(** X11.  No chart is selected only when there is none.  The chart
    selected is one of the charts and a median by note count, whatever
    the sort does with charts of equal count: of [N] charts at most
    [floor((N-1)/2)] have fewer notes than it and at most
    [N - 1 - floor((N-1)/2)] have more. *)
Theorem selected_chart_is_a_median :
  forall cs : list chart,
    (select_chart cs = None <-> cs = [])
    /\ forall c : chart,
         select_chart cs = Some c ->
         In c cs
         /\ (length (filter (fun x => Z.ltb (noteCount x) (noteCount c)) cs)
             <= (length cs - 1) / 2)%nat
         /\ (length (filter (fun x => Z.ltb (noteCount c) (noteCount x)) cs)
             <= length cs - 1 - (length cs - 1) / 2)%nat.
Proof.
  intros cs.
  pose proof (sort_charts_perm cs) as Hperm.
  pose proof (sort_charts_sorted cs) as Hsorted.
  pose proof (Permutation_length Hperm) as Hlen.
  split; [apply select_chart_none|].
  intros c Hsel.
  unfold select_chart, median_index in Hsel. rewrite <- Hlen in Hsel.
  apply nth_error_split in Hsel as (l1 & l2 & Hs & Hk).
  rewrite Hs in Hsorted. apply sorted_around in Hsorted as [Hbefore Hafter].
  assert (Hn : length cs = (length l1 + S (length l2))%nat).
  { rewrite Hlen, Hs, length_app. reflexivity. }
  split.
  { apply (Permutation_in c (Permutation_sym Hperm)). rewrite Hs.
    apply in_or_app. right. now left. }
  split.
  { rewrite (filter_length_perm _ Hperm), Hs, filter_app, length_app.
    cbn [filter]. rewrite Z.ltb_irrefl.
    rewrite (@filter_none _ _ l2).
    - cbn [length]. rewrite Nat.add_0_r, <- Hk. apply filter_length_le.
    - eapply Forall_impl; [|exact Hafter]. intros x Hx. cbv beta in Hx.
      apply Z.ltb_ge. exact Hx. }
  rewrite (filter_length_perm _ Hperm), Hs, filter_app, length_app.
  cbn [filter]. rewrite Z.ltb_irrefl.
  rewrite (@filter_none _ _ l1).
  - cbn [length plus].
    pose proof (filter_length_le
                  (fun x => Z.ltb (noteCount c) (noteCount x)) l2).
    rewrite <- Hk. lia.
  - eapply Forall_impl; [|exact Hbefore]. intros x Hx. cbv beta in Hx.
    apply Z.ltb_ge. exact Hx.
Qed.

Lemma selected_chart_is_a_median_witness :
  exists c,
    select_chart Samples.four_charts = Some c
    /\ (length (filter (fun x => Z.ltb (noteCount x) (noteCount c))
                       Samples.four_charts) <= 1)%nat.
Proof.
  destruct (select_chart Samples.four_charts) as [c|] eqn:Hsel;
    [|discriminate].
  exists c. split; [reflexivity|].
  exact (proj1 (proj2 (proj2 (@selected_chart_is_a_median
                                Samples.four_charts) c Hsel))).
Defined.

End ChartProperties.

Section SelectionFailure.
Import JS Worker.




End SelectionFailure.

Section ServiceProperties.
Import JS Worker.

(** X13.  For an accepted request whose render leaves no error and
    whose upload succeeds, the answer is a diagnostics object with the
    operation identifier of the request, the encoded file of the
    working directory as output path, no error, a finish time, and the
    events [render:start], those of every stage in their order, and
    [uploaded] last. *)
Theorem uploaded_render_answers_all_events :
  forall (W : World) (operationId' : jsstring) (url : option jsstring)
         (st : state),
    let st1 :=
      render W (ToString url) None
             (mkState (new_diagnostics (Some operationId'))
                      (trace st) (clock st)) in
    starts_with (str "http") (ToString url) = true ->
    error (diagnostics st1) = None ->
    upload W (trace st1) (BMSURGE_RENDER_OUTPUT_BUCKET W)
           (workDir W ++ str "/song.mp3") (operationId' ++ str ".mp3")
      = Ok tt ->
    exists d,
      fst (put_render W operationId' url st) = Json d
      /\ operationId d = Some operationId'
      /\ outFile d = Some (workDir W ++ str "/song.mp3")
      /\ error d = None
      /\ (exists t, finishedAt d = Some t)
      /\ map event (events d)
         = map str ("render:start"%string :: stage_tags ++ ["uploaded"%string]).
Proof.
  intros W op url st st1 Hacc Herr Hup.
  pose proof (render_cases W (ToString url) None
                (mkState (new_diagnostics (Some op)) (trace st) (clock st)))
    as Hr.
  cbv zeta in Hr. fold st1 in Hr.
  destruct Hr as (Hop & Hfin & Hcases).
  destruct Hcases
    as [(done & tag & e & new & _ & _ & _ & _ & He)
       | (stf & new & _ & Hev & Hmap & Hend)]; [congruence|].
  destruct (fst (deliver W (workDir W ++ str "/song.mp3") None stf))
    as [[]|e]; [|destruct Hend as (He & _); congruence].
  destruct Hend as [_ Hout].
  unfold put_render. rewrite Hacc. cbn [negb]. fold st1.
  rewrite Hout, truthy_songMp3Path. unfold perform. rewrite Hup.
  eexists. split; [reflexivity|].
  unfold eventLog, record.
  cbn [diagnostics operationId events outFile error finishedAt fst].
  split; [exact Hop|]. split; [exact Hout|]. split; [exact Herr|].
  split; [exact Hfin|].
  rewrite Hev. cbn [new_diagnostics diagnostics events app].
  rewrite map_app, Hmap. cbn [map event]. now rewrite map_app.
Qed.

Lemma uploaded_render_answers_all_events_witness :
  exists d,
    fst (put_render Samples.calm (str "op1")
                    (Some (str "http://example.com/a.zip")) Samples.start)
    = Json d
    /\ length (events d) = 13%nat.
Proof.
  destruct (@uploaded_render_answers_all_events Samples.calm (str "op1")
              (Some (str "http://example.com/a.zip")) Samples.start)
    as (d & Hd & _ & _ & _ & _ & Hev).
  - reflexivity.
  - vm_compute. reflexivity.
  - reflexivity.
  - exists d. split; [exact Hd|].
    rewrite <- (length_map event), Hev. reflexivity.
Defined.

(** X14.  Whatever the handler answers as diagnostics belongs to the
    request: it carries the operation identifier of the request and a
    finish time, and its first event is [render:start]. *)
Theorem answered_diagnostics_is_the_requests :
  forall (W : World) (operationId' : jsstring) (url : option jsstring)
         (st : state) (d : OutputDiagnostics),
    fst (put_render W operationId' url st) = Json d ->
    operationId d = Some operationId'
    /\ (exists t, finishedAt d = Some t)
    /\ exists first rest,
         events d = first :: rest /\ event first = str "render:start".
Proof.
  intros W op url st d Hd.
  unfold put_render in Hd.
  destruct (starts_with (str "http") (ToString url));
    [|discriminate Hd].
  change (negb true) with false in Hd. cbv beta iota zeta in Hd.
  pose proof (render_cases W (ToString url) None
                (mkState (new_diagnostics (Some op)) (trace st) (clock st)))
    as Hr.
  cbv zeta in Hr.
  remember (render W (ToString url) None
              (mkState (new_diagnostics (Some op)) (trace st) (clock st)))
    as st1 eqn:Hst1.
  clear Hst1.
  destruct Hr as (Hop & Hfin & Hcases).
  cbn [new_diagnostics diagnostics operationId events app] in Hop, Hcases.
  assert (Hfirst : exists first rest,
             events (diagnostics st1) = first :: rest
             /\ event first = str "render:start").
  { destruct Hcases
      as [(done & tag & e & new & _ & Hev & Hmap & _)
         | (stf & new & _ & Hev & Hmap & _)];
      destruct new as [|first rest]; try discriminate;
      exists first, rest; (split; [exact Hev|]);
      now injection Hmap as Hfirst _. }
  clear Hcases.
  destruct (outFile (diagnostics st1)) as [path|].
  - destruct (truthy path).
    + unfold perform in Hd.
      destruct (upload W (trace st1) (BMSURGE_RENDER_OUTPUT_BUCKET W) path
                       (op ++ str ".mp3")); [|discriminate].
      injection Hd as <-.
      unfold eventLog, record.
      cbn [diagnostics operationId events outFile error finishedAt].
      split; [exact Hop|]. split; [exact Hfin|].
      destruct Hfirst as (first & rest & Hev & Hname).
      exists first, (rest ++ [mkEvent (Date_now W (clock st1))
                                      (str "uploaded")]).
      rewrite Hev. split; [reflexivity | exact Hname].
    + injection Hd as <-. auto.
  - injection Hd as <-. auto.
Qed.

Lemma answered_diagnostics_is_the_requests_witness :
  exists d,
    fst (put_render (Samples.failing "wget" Samples.timed_out) (str "op1")
                    (Some (str "http://example.com/a.zip")) Samples.start)
    = Json d
    /\ operationId d = Some (str "op1").
Proof.
  eexists. split; [vm_compute; reflexivity|].
  refine (proj1 (@answered_diagnostics_is_the_requests
                   (Samples.failing "wget" Samples.timed_out) (str "op1")
                   (Some (str "http://example.com/a.zip")) Samples.start
                   _ _)).
  vm_compute. reflexivity.
Defined.

End ServiceProperties.

Section Clock.
Import JS Worker.

Variable W : World.

Lemma still_same (A : Type) (m : M A) :
  (forall st, clock (snd (m st)) = clock st
              /\ diagnostics (snd (m st)) = diagnostics st) ->
  still m.
Proof.
  intros H st. destruct (H st) as [Hc Hd]. now rewrite Hc, Hd.
Qed.

Lemma still_ret {A} (a : A) : still (ret a).
Proof. intros st. split; reflexivity. Qed.

Lemma still_throw {A} (e : js_error) : still (@throw A e).
Proof. intros st. split; reflexivity. Qed.

Lemma still_bind {A B} (m : M A) (k : A -> M B) :
  still m -> (forall a, still (k a)) -> still (bind m k).
Proof.
  intros Hm Hk st. unfold bind. specialize (Hm st).
  destruct (m st) as [[a|e] st1]; cbn [snd] in *; [|exact Hm].
  destruct (Hk a st1) as [Hc He]. destruct Hm as [Hc' He'].
  split; congruence.
Qed.

Lemma still_perform {A} (a : action) (answer : list action -> result A) :
  still (perform a answer).
Proof. intros st. split; reflexivity. Qed.

Lemma still_for_of {A} (xs : list A) (body : A -> M unit) :
  (forall x, still (body x)) -> still (for_of xs body).
Proof.
  intros Hb. induction xs as [|x xs IH]; simpl.
  - apply still_ret.
  - apply still_bind; [apply Hb | intros _; exact IH].
Qed.

Lemma still_execLog (command : jsstring) (args : list jsstring)
    (timeout : option Z) (cwd : option jsstring) :
  still (execLog W command args timeout cwd).
Proof.
  apply still_bind; [apply still_perform | intros; apply still_ret].
Qed.

Lemma still_set_workingDirectory (dir : jsstring) :
  still (set_workingDirectory dir).
Proof. intros st. split; reflexivity. Qed.

Lemma still_set_outFile (path : jsstring) : still (set_outFile path).
Proof. intros st. split; reflexivity. Qed.

Lemma still_prune (dir : jsstring) (files : list jsstring) :
  still (prune W dir files).
Proof.
  apply still_for_of. intros x.
  destruct (negb (related x)); [apply still_perform | apply still_ret].
Qed.

Lemma still_convert_sound (src dest : jsstring) (total n : nat)
    (sound : jsstring) :
  still (convert_sound W src dest total n sound).
Proof.
  intros st.
  destruct (handler_ends_with_unlink W src dest sound total n st)
    as (middle & -> & _).
  split; reflexivity.
Qed.

Lemma still_convert_sounds (src dest : jsstring) (total : nat)
    (sounds : list jsstring) :
  forall n, still (convert_sounds W src dest total n sounds).
Proof.
  induction sounds as [|s sounds IH]; intros n; simpl.
  - apply still_ret.
  - apply still_bind; [apply still_convert_sound | intros _; apply IH].
Qed.

Lemma still_prepareSounds (src dest : jsstring) :
  still (prepareSounds W src dest).
Proof.
  unfold prepareSounds.
  apply still_bind; [apply still_perform|]. intros _.
  apply still_bind; [apply still_perform|]. intros sounds.
  apply still_convert_sounds.
Qed.

Lemma still_deliver (path : jsstring) (out : option jsstring) :
  still (deliver W path out).
Proof.
  unfold deliver.
  apply still_bind; [apply still_set_outFile|]. intros _.
  destruct out as [destination|]; [|apply still_ret].
  destruct (truthy destination); [|apply still_ret].
  apply still_bind; [apply still_execLog | intros _; apply still_set_outFile].
Qed.

Lemma still_render_try (url : jsstring) (out : option jsstring) :
  still_stages (render_try W url out).
Proof.
  unfold render_try. simpl.
  repeat match goal with
         | |- _ /\ _ => split
         | |- forall _, _ => intro
         | |- still (deliver _ _ _) => apply still_deliver
         | |- still (bind _ _) => apply still_bind
         | |- still (execLog _ _ _ _ _) => apply still_execLog
         | |- still (set_workingDirectory _) => apply still_set_workingDirectory
         | |- still (mkdirp _ _) => apply still_perform
         | |- still (glob _ _ _ _ _) => apply still_perform
         | |- still (unlink _ _) => apply still_perform
         | |- still (rename _ _ _) => apply still_perform
         | |- still (realpath _ _) => apply still_perform
         | |- still (readIndex _ _) => apply still_perform
         | |- still (prune _ _ _) => apply still_prune
         | |- still (prepareSounds _ _ _) => apply still_prepareSounds
         | |- still (for_of _ _) => apply still_for_of
         | |- still (ret _) => apply still_ret
         | |- still (throw _) => apply still_throw
         | |- still (match ?x with _ => _ end) => destruct x
         | |- still (if ?x then _ else _) => destruct x
         end.
Qed.

Lemma stamped_still (st st' : state) :
  clock st' = clock st ->
  events (diagnostics st') = events (diagnostics st) ->
  stamped W st st' 0.
Proof.
  intros Hc He. split; [now rewrite Hc, Nat.add_0_r|].
  exists []. now rewrite He, app_nil_r.
Qed.

Lemma stamped_event (st st1 st' : state) (t : string) (n : nat) :
  clock st1 = clock st ->
  events (diagnostics st1) = events (diagnostics st) ->
  stamped W (eventLog W t st1) st' n ->
  stamped W st st' (S n).
Proof.
  intros Hc He (Hclock & new & Hev & Htimes).
  cbn [eventLog clock diagnostics events] in Hclock, Hev, Htimes.
  split; [rewrite Hclock, Hc; lia|].
  exists (mkEvent (Date_now W (clock st1)) (str t) :: new). split.
  - rewrite Hev, He, <- app_assoc. reflexivity.
  - cbn [map seq time]. rewrite Htimes, Hc. reflexivity.
Qed.

(** Every event of a run carries one reading of the clock, and the
    clock is read for nothing else. *)
Lemma run_stamped (p : pipeline) :
  still_stages p ->
  forall st, exists n, stamped W st (snd (run W p st)) n.
Proof.
  induction p as [m | A body t next IH]; simpl; intros Hs st.
  - exists 0%nat. destruct (Hs st). now apply stamped_still.
  - destruct Hs as [Hbody Hnext]. destruct (Hbody st) as [Hc He].
    destruct (body st) as [[a|e] st1]; cbn [snd] in Hc, He.
    + destruct (IH a (Hnext a) (eventLog W t st1)) as [n Hn].
      exists (S n). eapply stamped_event; eauto.
    + exists 0%nat. now apply stamped_still.
Qed.

Lemma readings_sorted (a n : nat) :
  monotone W -> StronglySorted Z.le (map (Date_now W) (seq a n)).
Proof.
  intros Hm. revert a. induction n as [|n IH]; intros a; simpl.
  - constructor.
  - constructor; [apply IH|].
    apply Forall_forall. intros t Ht.
    apply in_map_iff in Ht as (i & <- & Hi). apply in_seq in Hi.
    apply Hm. lia.
Qed.

End Clock.

Section ClockProperty.
Import JS Worker.

(** X15.  The events that [render] appends carry consecutive readings
    of the clock, in the order of the events, and the finish time is
    the reading after the last of them; [render] reads the clock for
    nothing else.  So with a clock that does not go back the times of
    the appended events do not decrease and none is later than the
    finish time. *)
Theorem render_stamps_in_clock_order :
  forall (W : World) (url : jsstring) (out : option jsstring) (st : state),
    let st' := render W url out st in
    let d := diagnostics st' in
    exists new n,
      events d = events (diagnostics st) ++ new
      /\ length new = S n
      /\ map time new = map (Date_now W) (seq (clock st) (S n))
      /\ finishedAt d = Some (Date_now W (clock st + S n))
      /\ clock st' = S (clock st + S n)
      /\ (monotone W ->
          StronglySorted Z.le (map time new)
          /\ Forall (fun t => (t <= Date_now W (clock st + S n))%Z)
                    (map time new)).
Proof.
  intros W url out st st' d.
  destruct (run_stamped W _ (still_render_try W url out)
              (eventLog W "render:start" st))
    as (n & Hn).
  assert (Hall : stamped W st
                   (snd (run W (render_try W url out)
                             (eventLog W "render:start" st))) (S n))
    by (eapply stamped_event; eauto).
  destruct Hall as (Hclock & new & Hev & Htimes).
  exists new, n.
  assert (Hd : events d = events (diagnostics st) ++ new
               /\ finishedAt d = Some (Date_now W (clock st + S n))
               /\ clock st' = S (clock st + S n)).
  { subst d st'. unfold render.
    destruct (run W (render_try W url out) (eventLog W "render:start" st))
      as [[u|e] st2]; cbn [snd] in Hclock, Hev;
      unfold set_finishedAt, set_error;
      cbn [diagnostics events finishedAt clock];
      rewrite Hclock; auto. }
  destruct Hd as (Hd1 & Hd2 & Hd3).
  split; [exact Hd1|].
  split; [now rewrite <- (length_map time), Htimes, length_map, length_seq|].
  split; [exact Htimes|]. split; [exact Hd2|]. split; [exact Hd3|].
  intros Hm. rewrite Htimes. split; [now apply readings_sorted|].
  apply Forall_forall. intros t Ht.
  apply in_map_iff in Ht as (i & <- & Hi). apply in_seq in Hi.
  apply Hm. lia.
Qed.

Lemma render_stamps_in_clock_order_witness :
  let d := diagnostics (render Samples.calm (str "http://example.com/a.zip")
                               None Samples.start) in
  exists new n,
    events d = new /\ length new = S n
    /\ StronglySorted Z.le (map time new).
Proof.
  intros d.
  destruct (@render_stamps_in_clock_order Samples.calm
              (str "http://example.com/a.zip") None Samples.start)
    as (new & n & Hev & Hlen & _ & _ & _ & Hsorted).
  exists new, n. split; [exact Hev|]. split; [exact Hlen|].
  apply Hsorted. intros i j Hij.
  unfold Samples.calm, Samples.world. cbn [Date_now]. lia.
Defined.

End ClockProperty.

Section SelectionOrder.
Import JS Worker.

Local Open Scope Z_scope.

Lemma sorted_perm_eq (l l' : list Z) :
  StronglySorted Z.le l -> StronglySorted Z.le l' -> Permutation l l' ->
  l = l'.
Proof.
  revert l'. induction l as [|a l IH]; intros l' Hs Hs' Hp.
  - now apply Permutation_nil in Hp.
  - destruct l' as [|b l'].
    { apply Permutation_sym, Permutation_nil in Hp. discriminate. }
    inversion Hs as [|? ? Hl Ha]; subst.
    inversion Hs' as [|? ? Hl' Hb]; subst.
    assert (Hab : a = b).
    { assert (Hin : In a (b :: l')) by (apply (Permutation_in a Hp); now left).
      assert (Hin' : In b (a :: l))
        by (apply (Permutation_in b (Permutation_sym Hp)); now left).
      rewrite Forall_forall in Ha, Hb.
      destruct Hin as [->|Hin]; [reflexivity|].
      destruct Hin' as [->|Hin']; [reflexivity|].
      specialize (Ha b Hin'). specialize (Hb a Hin). lia. }
    subst b. f_equal. apply IH; try assumption.
    now apply Permutation_cons_inv in Hp.
Qed.

Lemma sorted_counts (cs : list chart) :
  StronglySorted Z.le (map noteCount (sort_charts cs)).
Proof.
  pose proof (sort_charts_sorted cs) as H.
  induction H as [|c l Hl IH Hc]; simpl; constructor; [assumption|].
  apply Forall_forall. intros n Hn.
  apply in_map_iff in Hn as (x & <- & Hx).
  rewrite Forall_forall in Hc. now apply Hc.
Qed.

(** X16.  The note count of the chart selected does not depend on the
    order in which the manifest lists the charts: two lists with the
    same charts in different orders give selected charts of the same
    note count. *)
Theorem selected_note_count_ignores_order :
  forall cs cs' : list chart,
    Permutation cs cs' ->
    option_map noteCount (select_chart cs)
    = option_map noteCount (select_chart cs').
Proof.
  intros cs cs' Hp.
  assert (Hcounts : map noteCount (sort_charts cs)
                    = map noteCount (sort_charts cs')).
  { apply sorted_perm_eq; try apply sorted_counts.
    apply Permutation_map.
    rewrite <- (sort_charts_perm cs), <- (sort_charts_perm cs'). exact Hp. }
  unfold select_chart.
  rewrite <- !nth_error_map, Hcounts.
  rewrite <- (length_map noteCount (sort_charts cs)), Hcounts, length_map.
  reflexivity.
Qed.

Lemma selected_note_count_ignores_order_witness :
  option_map noteCount (select_chart (rev Samples.four_charts))
  = option_map noteCount (select_chart Samples.four_charts).
Proof.
  apply selected_note_count_ignores_order.
  apply Permutation_sym, Permutation_rev.
Defined.

End SelectionOrder.

Section ConvertedName.
Import JS Worker.

Lemma split_plain (sep : N) (s : jsstring) :
  ~ In sep s -> split sep s = [s].
Proof.
  induction s as [|c s IH]; simpl; intros H; [reflexivity|].
  destruct (N.eqb c sep) eqn:Hc.
  - apply N.eqb_eq in Hc. exfalso. apply H. now left.
  - rewrite IH; [reflexivity|]. intros Hin. apply H. now right.
Qed.

Lemma last_segment_plain (name : jsstring) :
  ~ In slash name -> last_segment name = name.
Proof.
  intros H. unfold last_segment. now rewrite split_plain.
Qed.

Lemma from_last_dot_suffix (s : jsstring) :
  forall seen ext,
    from_last_dot seen s = Some ext ->
    ext <> []
    /\ exists stem, s = stem ++ ext /\ (seen = false -> stem <> []).
Proof.
  induction s as [|c s IH]; intros seen ext; simpl; [discriminate|].
  destruct (from_last_dot true s) as [ext'|] eqn:Hrest.
  - intros [= <-]. destruct (IH true ext' Hrest) as (Hne & stem & -> & _).
    split; [assumption|]. exists (c :: stem). split; [reflexivity|].
    discriminate.
  - destruct (N.eqb c dot && seen)%bool eqn:Hc; [|discriminate].
    intros [= <-]. split; [discriminate|].
    exists []. split; [reflexivity|].
    apply andb_true_iff in Hc as [_ ->]. discriminate.
Qed.

Lemma strip_suffix_app (stem ext : jsstring) :
  strip_suffix ext (stem ++ ext) = Some stem.
Proof.
  unfold strip_suffix. rewrite length_app.
  replace (length stem + length ext - length ext)%nat with (length stem)
    by lia.
  replace (Nat.leb (length ext) (length stem + length ext)) with true
    by (symmetry; apply Nat.leb_le; lia).
  rewrite skipn_app, skipn_all, Nat.sub_diag. cbn [skipn app].
  rewrite jsstring_eqb_refl. cbn [andb].
  now rewrite firstn_app, firstn_all, Nat.sub_diag, firstn_0, app_nil_r.
Qed.

(** A file name is its [basename] without extension followed by its
    [extname]. *)
Lemma stem_and_extension (name : jsstring) :
  ~ In slash name ->
  basename name (extname name) ++ extname name = name.
Proof.
  intros Hplain. unfold extname, basename.
  rewrite (@last_segment_plain name Hplain).
  destruct (jsstring_eqb name [dot; dot]); [apply app_nil_r|].
  destruct (from_last_dot false name) as [ext|] eqn:Hext;
    [|apply app_nil_r].
  destruct (@from_last_dot_suffix name false ext Hext)
    as (Hne & stem & Hname & Hstem).
  specialize (Hstem eq_refl).
  destruct ext as [|d ext]; [contradiction|]. cbn [truthy].
  destruct (jsstring_eqb (d :: ext) name) eqn:Heq.
  - apply jsstring_eqb_eq in Heq. exfalso.
    apply (f_equal (@length N)) in Hname. rewrite <- Heq in Hname.
    rewrite length_app in Hname. destruct stem; [contradiction|].
    simpl in Hname. lia.
  - rewrite Hname at 1. rewrite strip_suffix_app.
    destruct stem; [contradiction|]. cbn [truthy]. now symmetry.
Qed.

(** X17.  For a sound file of non-zero size whose name holds no slash,
    the handler runs the converter on the source file with the target
    rate and channel count, writing into the destination directory the
    file named by the stem of the source name followed by [.wav], the
    stem being the name without its extension. *)
Theorem converter_writes_stem_wav :
  forall (W : World) (src dest sound : jsstring) (total n : nat)
         (st : state) (size : N),
    ~ In slash sound ->
    statSync_size W (trace st) (path_join src sound) = Ok size ->
    size <> 0%N ->
    exists stem,
      stem ++ extname sound = sound
      /\ In (Exec (str "sox")
                  [path_join src sound; str "-r"; str "44.1k"; str "-c";
                   str "2"; path_join dest (stem ++ str ".wav")]
                  None None)
            (trace (snd (convert_sound W src dest total n sound st))).
Proof.
  intros W src dest sound total n st size Hplain Hsize Hnz.
  exists (basename sound (extname sound)).
  split; [now apply stem_and_extension|].
  unfold convert_sound, stat_size, run_execa, unlink, perform, record.
  cbn [trace diagnostics clock]. rewrite Hsize.
  apply N.eqb_neq in Hnz. rewrite Hnz.
  match goal with
  | |- context [execa W ?h ?c ?a ?t ?d] => destruct (execa W h c a t d)
  end; cbn [snd trace]; rewrite <- !app_assoc;
    apply in_or_app; right; right; left; reflexivity.
Qed.

Lemma converter_writes_stem_wav_witness :
  let src := Samples.work_dir ++ str "/extracted" in
  let dest := Samples.work_dir ++ str "/render/song" in
  exists stem,
    stem ++ extname (str "kick.01.OGG") = str "kick.01.OGG"
    /\ In (Exec (str "sox")
                [path_join src (str "kick.01.OGG"); str "-r"; str "44.1k";
                 str "-c"; str "2"; path_join dest (stem ++ str ".wav")]
                None None)
          (trace (snd (convert_sound Samples.calm src dest 1 0
                                     (str "kick.01.OGG") Samples.start))).
Proof.
  intros src dest.
  refine (@converter_writes_stem_wav Samples.calm src dest
            (str "kick.01.OGG") 1 0 Samples.start 1024%N _ _ _).
  - vm_compute. intuition discriminate.
  - reflexivity.
  - discriminate.
Defined.

End ConvertedName.
